(** * string_align: edit distance, pair ranking and progressive alignment

    A shallow embedding of [src/digi_leap/pylib/string_align.cpp] and the
    properties of its three entry points, [levenshtein], [levenshtein_all]
    and [align_all].

    Conventions of the embedding:
    - [char32_t] is a code point ([N]); [std::u32string] is a list of them.
    - [long] is [Z]; every [long] of the program is bounded by a length of
      one of its inputs, so no wrap-around is written out.  [size_t] indices
      are [nat].
    - [float] is IEEE-754 binary32, through the executable specification of
      [Stdlib.Floats.SpecFloat] at precision 24 and maximal exponent 128,
      rounding to nearest even, without excess precision.
    - [std::vector] and [std::u32string] are lists.  Reading or writing
      past the end is undefined in C++: in [align_all] it is an explicit
      outcome ([Undefined]), which is shown never to be produced; in
      [levenshtein] and [levenshtein_all], whose loop bounds keep every
      index below the length, the elements are read with the total lookup.
    - [std::unordered_map<std::u32string, float>] is a [gmap].
    - An exception is its class and what its message reports; the key that
      the message of [align_all] embeds is kept as the key itself, its
      rendering by [convert_32_8] being total on the Unicode scalar values
      that the strings hold.  [std::cout.precision(2)] only changes the
      formatting state of [std::cout] and is left out. *)

From Stdlib Require Import ZArith Lia String Ascii SpecFloat.
From stdpp Require Import base list gmap sorting.

Local Open Scope Z_scope.

(** ** Code points and strings *)

Abbreviation char32_t := N.
Abbreviation u32string := (list char32_t).

(** [const char32_t gap_char = U'⋄';]  (U+22C4, DIAMOND OPERATOR) *)
Definition gap_char : char32_t := 0x22C4%N.

(** The [U"..."] literal prefix, for ASCII text. *)
Definition U (s : string) : u32string :=
  N_of_ascii <$> list_ascii_of_string s.

(** ** Loops *)

(** The index values of [for (long i = lo; i < hi; ++i)]. *)
Definition range (lo hi : Z) : list Z := seqZ lo (hi - lo).

(** ** [levenshtein] *)

(** [std::min({a, b, c})] on [long]. *)
Definition min3 (a b c : Z) : Z := Z.min (Z.min a b) c.

(** [std::iota(dist.begin(), dist.end(), 0)] on a vector of [n] cells. *)
Definition iota (n : nat) : list Z := Z.of_nat <$> seq 0 n.

(** [std::exchange(obj, new_value)]: the value it returns, and the value
    [obj] holds afterwards. *)
Definition exchange {A} (obj new_value : A) : A * A := (obj, new_value).

(** One pass of the inner loop body at column [c] of row [r]: the braced
    list is evaluated left to right, so [std::exchange] returns the old
    [prev_dist] and stores the old [dist[c + 1]] in it, and the two other
    candidates read [dist[c]] (already assigned in this row when [c > 0],
    never assigned when [c = 0]) and the old [dist[c + 1]]. *)
Definition levenshtein_cell (str1 str2 : u32string) (r : Z)
    (st : Z * list Z) (c : Z) : Z * list Z :=
  let '(prev_dist, dist) := st in
  let c1 := Z.to_nat (c + 1) in
  let '(exchanged, prev_dist) := exchange prev_dist (dist !!! c1) in
  let subst :=
    exchanged +
    (if decide (str1 !!! Z.to_nat r = str2 !!! Z.to_nat c) then 0 else 1) in
  (prev_dist,
   <[c1 := min3 subst (dist !!! Z.to_nat c + 1) (dist !!! c1 + 1)]> dist).

(** The body of the outer loop: [long prev_dist = r;] then the sweep over
    the columns. *)
Definition levenshtein_row (str1 str2 : u32string) (len2 : Z)
    (dist : list Z) (r : Z) : list Z :=
  snd (foldl (levenshtein_cell str1 str2 r) (r, dist) (range 0 len2)).

Definition levenshtein (str1 str2 : u32string) : Z :=
  let len1 := Z.of_nat (length str1) in
  let len2 := Z.of_nat (length str2) in
  if len1 =? 0 then len2
  else if len2 =? 0 then len1
  else
    let dist := iota (Z.to_nat (len2 + 1)) in
    let dist := foldl (levenshtein_row str1 str2 len2) dist (range 0 len1) in
    dist !!! Z.to_nat len2.

(** The classic unit-cost edit distance the documentation of [levenshtein]
    names, by its textbook recurrence on the two strings; kept apart from
    the program to compare the two. *)
Fixpoint edit_distance (a : u32string) : u32string → Z :=
  fix inner (b : u32string) : Z :=
    match a, b with
    | [], _ => Z.of_nat (length b)
    | _, [] => Z.of_nat (length a)
    | x :: a', y :: b' =>
        min3 (edit_distance a' b' + (if decide (x = y) then 0 else 1))
             (inner b' + 1)
             (edit_distance a' b + 1)
    end.

(** ** [levenshtein_all] *)

Abbreviation pair_result := (Z * Z * Z)%type.

(** [std::get<0>], [std::get<1>], [std::get<2>] *)
Definition get0 (t : pair_result) : Z := t.1.1.
Definition get1 (t : pair_result) : Z := t.1.2.
Definition get2 (t : pair_result) : Z := t.2.

(** [std::stable_sort(first, last, comp)]: the sorted rearrangement in which
    elements that [comp] does not order keep their relative order; here by
    insertion from the right, each element going in front of the first one
    that is not smaller. *)
Fixpoint stable_insert {A} (comp : A → A → bool) (x : A) (l : list A) : list A :=
  match l with
  | [] => [x]
  | y :: l' => if comp y x then y :: stable_insert comp x l' else x :: y :: l'
  end.

Fixpoint stable_sort {A} (comp : A → A → bool) (l : list A) : list A :=
  match l with
  | [] => []
  | x :: l' => stable_insert comp x (stable_sort comp l')
  end.

(** The two nested loops that fill [results] by [push_back]. *)
Definition all_pairs (strings : list u32string) : list pair_result :=
  let len := Z.of_nat (length strings) in
  foldl (λ results r,
           foldl (λ results c,
                    let dist := levenshtein (strings !!! Z.to_nat r)
                                            (strings !!! Z.to_nat c) in
                    results ++ [(dist, r, c)])
                 results (range (r + 1) len))
        [] (range 0 (len - 1)).

Definition levenshtein_all (strings : list u32string) : list pair_result :=
  stable_sort (λ t1 t2, get0 t1 <? get0 t2) (all_pairs strings).


(** ** Outcomes of [align_all] *)

(** The two messages [align_all] builds for [std::invalid_argument]:
    "You must enter at least one string." and
    "Either of '<key>' these characters are missing from the substitution
    matrix.", where <key> is the two-character key in UTF-8. *)
Inductive what_arg : Type :=
  | no_strings
  | missing_from_matrix (key : u32string).

(** [align_all] throws a single class of exception. *)
Inductive exception : Type :=
  | invalid_argument (what : what_arg).

(** How a run ends: it returns, it throws, it indexes a vector or a string
    past its end ([Undefined]), or the budget of iterations given to
    [while (true)] is used up before the loop leaves ([Diverge]). *)
Inductive outcome (A : Type) : Type :=
  | Return (a : A)
  | Throw (e : exception)
  | Undefined
  | Diverge.
Arguments Return {A} a.
Arguments Throw {A} e.
Arguments Undefined {A}.
Arguments Diverge {A}.

#[global] Instance outcome_fmap : FMap outcome := λ A B f m,
  match m with
  | Return a => Return (f a)
  | Throw e => Throw e
  | Undefined => Undefined
  | Diverge => Diverge
  end.
#[global] Instance outcome_ret : MRet outcome := @Return.
#[global] Instance outcome_bind : MBind outcome := λ A B f m,
  match m with
  | Return a => f a
  | Throw e => Throw e
  | Undefined => Undefined
  | Diverge => Diverge
  end.

(** [v[i]] for a [size_t] index. *)
Definition at_ {A} (v : list A) (i : nat) : outcome A :=
  match v !! i with
  | Some x => Return x
  | None => Undefined
  end.

(** [v[i]] for a [long] index, which is converted to [size_t]: a negative
    one lands far past the end. *)
Definition at_long {A} (v : list A) (i : Z) : outcome A :=
  if i <? 0 then Undefined else at_ v (Z.to_nat i).

(** A [for] loop over the index values [l], threading the variables the
    body assigns. *)
Fixpoint for_each {S I} (body : S → I → outcome S) (s : S) (l : list I)
    : outcome S :=
  match l with
  | [] => Return s
  | i :: l' => s' ← body s i; for_each body s' l'
  end.

(** ** Binary32 arithmetic *)

Abbreviation float := spec_float.
Definition prec : Z := 24.
Definition emax : Z := 128.

Definition fadd : float → float → float := SFadd prec emax.
Definition flt : float → float → bool := SFltb.
Definition feq : float → float → bool := SFeqb.

(** The literal [0.0] and a [float] converted from an integer. *)
Definition fzero : float := S754_zero false.
Definition float_of_Z (z : Z) : float := binary_normalize prec emax z 0 false.

(** [std::numeric_limits<float>::lowest()] = -(2^24 - 1) * 2^104 *)
Definition lowest : float := S754_finite true (2 ^ 24 - 1) 104.

(** [std::max({a, b})] and [std::max({a, b, c})]: the first of the greatest
    elements under [operator<]. *)
Definition fmax2 (a b : float) : float := if flt a b then b else a.
Definition fmax3 (a b c : float) : float := fmax2 (fmax2 a b) c.

(** ** The trace matrix *)

Inductive TraceDir : Type := none | diag | up | left.

#[global] Instance TraceDir_eq_dec : EqDecision TraceDir.
Proof. solve_decision. Defined.

Module Trace.
Record t : Type := mk { val : float; up : float; left : float; dir : TraceDir }.
End Trace.
Abbreviation Trace := Trace.t.

(** [Trace(): val(0.0), up(0.0), left(0.0), dir(none) {}] *)
Definition Trace_new : Trace := Trace.mk fzero fzero fzero none.

Abbreviation TraceMatrix := (list (list Trace)).

(** [trace[r][c]], read. *)
Definition cell_at (trace : TraceMatrix) (r c : nat) : outcome Trace :=
  row ← at_ trace r; at_ row c.

(** [trace[r][c]], with all four fields assigned. *)
Definition cell_set (trace : TraceMatrix) (r c : nat) (cell : Trace)
    : outcome TraceMatrix :=
  row ← at_ trace r;
  _ ← at_ row c;
  Return (<[r := <[c := cell]> row]> trace).

(** ** [align_all] *)

Section Align.
Context (weight : gmap u32string float) (gap skew : float).

(** The body of the first boundary loop: cell [(r, 0)]. *)
Definition init_column (st : float * TraceMatrix) (r : nat)
    : outcome (float * TraceMatrix) :=
  let '(g, trace) := st in
  trace ← cell_set trace r 0 (Trace.mk g g g up);
  Return (fadd g skew, trace).

(** The body of the second boundary loop: cell [(0, c)]. *)
Definition init_row (st : float * TraceMatrix) (c : nat)
    : outcome (float * TraceMatrix) :=
  let '(g, trace) := st in
  trace ← cell_set trace 0 c (Trace.mk g g g left);
  Return (fadd g skew, trace).

(** The two characters in ascending order, as the lookup key. *)
Definition key_of (results_char strings_char : char32_t) : u32string :=
  if (strings_char <? results_char)%N
  then [strings_char; results_char]
  else [results_char; strings_char].

(** The body of the loop over the rows [k] of the alignment, at cell
    [(r, c)]: [continue] on a gap, [throw] on a missing key, otherwise
    keep the larger of [diagonal] and the looked-up value. *)
Definition diagonal_step (results : list u32string) (str : u32string)
    (r c : nat) (diagonal : float) (k : nat) : outcome float :=
  row ← at_ results k;
  results_char ← at_ row (r - 1);
  strings_char ← at_ str (c - 1);
  if decide (results_char = gap_char) then Return diagonal
  else
    let key := key_of results_char strings_char in
    match weight !! key with
    | None => Throw (invalid_argument (missing_from_matrix key))
    | Some value => Return (if flt diagonal value then value else diagonal)
    end.

Definition diagonal_of (results : list u32string) (str : u32string)
    (r c : nat) : outcome float :=
  for_each (diagonal_step results str r c) lowest
           (seq 0 (length results)).

(** What an interior cell holds once its three neighbours and the best
    substitution score [d] are known. *)
Definition interior (cell_up cell_left cell_diag : Trace) (d : float)
    : Trace :=
  let up' := fmax2 (fadd (Trace.up cell_up) skew)
                   (fadd (Trace.val cell_up) gap) in
  let left' := fmax2 (fadd (Trace.left cell_left) skew)
                     (fadd (Trace.val cell_left) gap) in
  let diagonal := fadd d (Trace.val cell_diag) in
  let val' := fmax3 diagonal up' left' in
  let dir' :=
    if feq val' diagonal then diag
    else if feq val' up' then up
    else left in
  Trace.mk val' up' left' dir'.

(** The body of the innermost [for c] loop.  [cell], [cell_up] and
    [cell_left] refer to three different cells, so the assignments to
    [cell] are gathered in one write. *)
Definition fill_cell (results : list u32string) (str : u32string)
    (r : nat) (trace : TraceMatrix) (c : nat) : outcome TraceMatrix :=
  _ ← cell_at trace r c;
  cell_up ← cell_at trace (r - 1) c;
  cell_left ← cell_at trace r (c - 1);
  d ← diagonal_of results str r c;
  cell_diag ← cell_at trace (r - 1) (c - 1);
  cell_set trace r c (interior cell_up cell_left cell_diag d).

(** "Build the matrix". *)
Definition build_trace (results : list u32string) (str : u32string)
    (rows cols : nat) : outcome TraceMatrix :=
  let trace := replicate (rows + 1) (replicate (cols + 1) Trace_new) in
  '(_, trace) ← for_each init_column (gap, trace) (seq 1 rows);
  '(_, trace) ← for_each init_row (gap, trace) (seq 1 cols);
  for_each (λ trace r, for_each (fill_cell results str r) trace (seq 1 cols))
           trace (seq 1 rows).

(** [for k: new_results[k] += results[k][r-1];] with [r] a [long]. *)
Definition push_column (results : list u32string) (r : Z)
    (new_results : list u32string) : outcome (list u32string) :=
  for_each (λ new_results k,
              row ← at_ results k;
              ch ← at_long row (r - 1);
              acc ← at_ new_results k;
              Return (<[k := acc ++ [ch]]> new_results))
           new_results (seq 0 (length results)).

(** [for k: new_results[k] += gap_char;] *)
Definition push_gaps (results : list u32string)
    (new_results : list u32string) : outcome (list u32string) :=
  for_each (λ new_results k,
              acc ← at_ new_results k;
              Return (<[k := acc ++ [gap_char]]> new_results))
           new_results (seq 0 (length results)).

(** The variables of the trace-back loop. *)
Record walk : Type := Walk {
  walk_r : Z;
  walk_c : Z;
  walk_new_results : list u32string;
  walk_new_string : u32string
}.

(** "Trace-back": [while (true)], cut after [fuel] iterations. *)
Fixpoint traceback (fuel : nat) (trace : TraceMatrix)
    (results : list u32string) (str : u32string) (w : walk)
    : outcome walk :=
  match fuel with
  | O => Diverge
  | S fuel =>
      let '(Walk r c new_results new_string) := w in
      row ← at_long trace r;
      cell ← at_long row c;
      match Trace.dir cell with
      | none => Return w
      | diag =>
          new_results ← push_column results r new_results;
          ch ← at_long str (c - 1);
          traceback fuel trace results str
            (Walk (r - 1) (c - 1) new_results (new_string ++ [ch]))
      | up =>
          new_results ← push_column results r new_results;
          traceback fuel trace results str
            (Walk (r - 1) c new_results (new_string ++ [gap_char]))
      | left =>
          new_results ← push_gaps results new_results;
          ch ← at_long str (c - 1);
          traceback fuel trace results str
            (Walk r (c - 1) new_results (new_string ++ [ch]))
      end
  end.

(** One round of the loop over [s]: fold [str = strings[s]] into
    [results]. *)
Definition fold_in (fuel : nat) (results : list u32string)
    (str : u32string) : outcome (list u32string) :=
  row0 ← at_ results 0;
  let rows := length row0 in
  let cols := length str in
  trace ← build_trace results str rows cols;
  w ← traceback fuel trace results str
        (Walk (Z.of_nat rows) (Z.of_nat cols)
              (replicate (length results) []) []);
  let new_results := walk_new_results w ++ [walk_new_string w] in
  Return (reverse <$> new_results).

Definition align_all (fuel : nat) (strings : list u32string)
    : outcome (list u32string) :=
  if decide (length strings < 1)%nat
  then Throw (invalid_argument no_strings)
  else
    first ← at_ strings 0;
    for_each (λ results s, str ← at_ strings s; fold_in fuel results str)
             [first] (seq 1 (length strings - 1)).
End Align.


(** * Vocabulary of the statements *)

(** ** Pair ranking *)

(** The pairs of row [r] of the enumeration: [(r, r + 1)], ..., [(r, n - 1)]
    with their distances. *)
Definition row_pairs (strings : list u32string) (r : Z) : list pair_result :=
  (λ c, (levenshtein (strings !!! Z.to_nat r) (strings !!! Z.to_nat c), r, c))
    <$> range (r + 1) (Z.of_nat (length strings)).

(** Row-major order of the index pairs: [i] first, then [j]. *)
Definition row_major (t1 t2 : pair_result) : Prop :=
  get1 t1 < get1 t2 ∨ (get1 t1 = get1 t2 ∧ get2 t1 < get2 t2).

(** ** Outcomes *)

(** [post Q E m]: the run [m] ends, by returning a value that satisfies [Q]
    or by throwing an exception that satisfies [E]; it neither indexes past
    an end nor exhausts its loop budget. *)
Definition post {A} (Q : A → Prop) (E : exception → Prop) (m : outcome A)
    : Prop :=
  match m with
  | Return a => Q a
  | Throw e => E e
  | Undefined => False
  | Diverge => False
  end.

(** [settles m m']: whatever [m] ends with, unless it is cut by the loop
    budget, [m'] ends with the same. *)
Definition settles {A} (m m' : outcome A) : Prop := m ≠ Diverge → m' = m.

(** ** Alignments *)

(** A string with its gap markers deleted. *)
Definition degap (s : u32string) : u32string :=
  filter (λ ch, ch ≠ gap_char) s.

(** No gap marker occurs in the string. *)
Definition gap_free (s : u32string) : Prop := gap_char ∉ s.

(** All rows have [width] characters. *)
Definition rectangular (rows : list u32string) (width : nat) : Prop :=
  Forall (λ row, length row = width) rows.

(** Some row has a character other than the gap marker at column [j]. *)
Definition column_filled (rows : list u32string) (j : nat) : Prop :=
  ∃ k row ch, rows !! k = Some row ∧ row !! j = Some ch ∧ ch ≠ gap_char.

Definition columns_filled (rows : list u32string) (width : nat) : Prop :=
  ∀ j, (j < width)%nat → column_filled rows j.

(** The sum of the lengths of the strings: a bound on every [R + C]. *)
Definition total_length (strings : list u32string) : nat :=
  sum_list_with length strings.

(** The new rows after [new_results[k] += results[k][j]] for every [k], and
    after [new_results[k] += gap_char] for every [k]. *)
Definition snoc_column (new_results results : list u32string) (j : nat)
    : list u32string :=
  zip_with (λ acc row, acc ++ [row !!! j]) new_results results.

Definition snoc_gaps (new_results : list u32string) : list u32string :=
  (λ acc, acc ++ [gap_char]) <$> new_results.

(** ** The trace matrix *)

Definition lookup2 (trace : TraceMatrix) (r c : nat) : option Trace :=
  trace !! r ≫= (.!! c).

Definition dir_at (trace : TraceMatrix) (r c : nat) : option TraceDir :=
  Trace.dir <$> lookup2 trace r c.

(** The matrix has [rows + 1] rows of [cols + 1] cells. *)
Definition dims (rows cols : nat) (trace : TraceMatrix) : Prop :=
  length trace = (rows + 1)%nat ∧ Forall (λ row, length row = (cols + 1)%nat) trace.

Section AlignSpec.
Context (weight : gmap u32string float) (gap skew : float).
Context (results : list u32string) (str : u32string).

(** [x], a character of the alignment that is not a gap, is compared with
    [y], a character of the string folded in. *)
Definition compared (x y : char32_t) : Prop :=
  x ≠ gap_char ∧ (∃ row, row ∈ results ∧ x ∈ row) ∧ y ∈ str.

(** The exception [e] reports the key of a compared pair that the matrix
    lacks. *)
Definition missing_pair (e : exception) : Prop :=
  ∃ x y, compared x y ∧ weight !! key_of x y = None
         ∧ e = invalid_argument (missing_from_matrix (key_of x y)).

(** Cell [(r, c)] holds what [interior] computes from its three neighbours
    as the matrix has them, and the best substitution score of the column. *)
Definition interior_ok (trace : TraceMatrix) (r c : nat) : Prop :=
  ∃ cell_up cell_left cell_diag d,
    lookup2 trace (r - 1) c = Some cell_up
    ∧ lookup2 trace r (c - 1) = Some cell_left
    ∧ lookup2 trace (r - 1) (c - 1) = Some cell_diag
    ∧ diagonal_of weight results str r c = Return d
    ∧ lookup2 trace r c = Some (interior gap skew cell_up cell_left cell_diag d).

(** The state of the matrix while it is built: the boundary cells [(r, 0)]
    with [col_done r] and [(0, c)] with [row_done c] hold their direction,
    and the interior cells with [cell_done r c] are filled. *)
Definition grid_inv (rows cols : nat) (col_done row_done : nat → Prop)
    (cell_done : nat → nat → Prop) (trace : TraceMatrix) : Prop :=
  dims rows cols trace
  ∧ dir_at trace 0 0 = Some none
  ∧ (∀ r, (1 ≤ r ≤ rows)%nat → col_done r → dir_at trace r 0 = Some up)
  ∧ (∀ c, (1 ≤ c ≤ cols)%nat → row_done c → dir_at trace 0 c = Some left)
  ∧ (∀ r c, (1 ≤ r ≤ rows)%nat → (1 ≤ c ≤ cols)%nat → cell_done r c →
       interior_ok trace r c).

(** The matrix as "Build the matrix" leaves it. *)
Definition grid_ok (rows cols : nat) (trace : TraceMatrix) : Prop :=
  grid_inv rows cols (λ _, True) (λ _, True) (λ _ _, True) trace.

(** What the trace-back loop keeps true of its variables: the indices are
    inside the matrix; each new row has as many characters as the new
    string, and read backwards it is, gaps apart, the part of its row that
    the walk has passed; the same for the new string; and, when every column
    of the alignment has a character and the string has no gap marker, so
    has every column built so far. *)
Definition walk_inv (rows cols : nat) (w : walk) : Prop :=
  0 ≤ walk_r w ≤ Z.of_nat rows
  ∧ 0 ≤ walk_c w ≤ Z.of_nat cols
  ∧ Z.of_nat (length (walk_new_string w)) + walk_r w + walk_c w
    ≤ Z.of_nat rows + Z.of_nat cols
  ∧ Forall2 (λ acc row,
               length acc = length (walk_new_string w)
               ∧ degap (reverse acc) = degap (drop (Z.to_nat (walk_r w)) row))
            (walk_new_results w) results
  ∧ degap (reverse (walk_new_string w)) = degap (drop (Z.to_nat (walk_c w)) str)
  ∧ (columns_filled results rows → gap_free str →
     columns_filled (walk_new_results w ++ [walk_new_string w])
                    (length (walk_new_string w))).
End AlignSpec.

(** What [align_all] has established once [strings] are folded in: one row
    per string, in their order, each its string up to gap markers; all rows
    of one length, at most the sum of the lengths of the strings; a
    character in every column when no string has a gap marker; and a score
    in the matrix for every pair the rounds compared. *)
Definition aligned (weight : gmap u32string float)
    (strings results : list u32string) : Prop :=
  Forall2 (λ row str, degap row = degap str) results strings
  ∧ (∃ width, rectangular results width
              ∧ (width ≤ total_length strings)%nat
              ∧ (Forall gap_free strings → columns_filled results width))
  ∧ (∀ k s strk strs x y,
       (k < s)%nat → strings !! k = Some strk → strings !! s = Some strs →
       x ∈ strk → x ≠ gap_char → y ∈ strs →
       is_Some (weight !! key_of x y)).

(** The exception reports a pair of characters, one of an earlier string and
    no gap marker, one of a later string, whose key is not in the matrix. *)
Definition missing_score (weight : gmap u32string float)
    (strings : list u32string) (e : exception) : Prop :=
  ∃ k s strk strs x y,
    (k < s)%nat ∧ strings !! k = Some strk ∧ strings !! s = Some strs
    ∧ x ∈ strk ∧ x ≠ gap_char ∧ y ∈ strs
    ∧ weight !! key_of x y = None
    ∧ e = invalid_argument (missing_from_matrix (key_of x y)).

(** The run ends by throwing [std::invalid_argument], whatever its
    message. *)
Definition throws_invalid_argument {A} (m : outcome A) : Prop :=
  ∃ what, m = Throw (invalid_argument what).

(** ** The scenario of the specification *)

(** The matrix [{"AA":0, "CC":0, "GG":0, "AC":-1, "AG":-1, "CG":-1}]. *)
Definition scenario_matrix : gmap u32string float :=
  list_to_map
    [(U "AA", float_of_Z 0); (U "CC", float_of_Z 0); (U "GG", float_of_Z 0);
     (U "AC", float_of_Z (-1)); (U "AG", float_of_Z (-1));
     (U "CG", float_of_Z (-1))].

Definition scenario_gap : float := float_of_Z (-2).
Definition scenario_skew : float := float_of_Z (-1).
Definition scenario_strings : list u32string := [U "AC"; U "AGC"].

(** The matrix of the round that folds "AGC" into ["AC"]. *)
Definition scenario_trace : TraceMatrix :=
  Eval vm_compute in
    match build_trace scenario_matrix scenario_gap scenario_skew
                      [U "AC"] (U "AGC") 2 3 with
    | Return trace => trace
    | _ => []
    end.

(** A matrix that has the key "BA" only, the reverse of the canonical key
    of the pair. *)
Definition reversed_matrix : gmap u32string float :=
  {[ U "BA" := float_of_Z 0 ]}.

(** ** The rolling row of [levenshtein] *)

(** [(str1[r] == str2[c] ? 0 : 1)] *)
Definition subst_cost (str1 str2 : u32string) (r c : nat) : Z :=
  if decide (str1 !!! r = str2 !!! c) then 0 else 1.

(** What [prev_dist] holds when column [c] of row [r] is computed, for a
    property [Old] of the cells of the row before: [r] itself in column 0,
    the cell of the row before otherwise. *)
Definition corner (Old : nat → Z → Prop) (r c : nat) (d : Z) : Prop :=
  if decide (c = 0%nat) then d = Z.of_nat r else Old c d.

(** ** The boundary of the trace matrix *)

(** The value of [g] when a boundary loop reaches index [n]: [gap] with
    [skew] added [n - 1] times, in binary32. *)
Definition boundary_score (gap skew : float) (n : nat) : float :=
  Nat.iter (n - 1) (λ g, fadd g skew) gap.

(** ** The path of the trace-back *)

(** The number of moves of the path other than [gap_on]: the moves that
    take a character. *)
Definition steps (gap_on : TraceDir) (moves : list TraceDir) : nat :=
  length (filter (λ d, d ≠ gap_on) moves).

(** A string laid out along a path from the first cell to the last: a gap
    marker at every move [gap_on], the next character of the string, from
    index [i] on, at every other move.  The rows of the alignment take a
    gap at [left], the string folded in at [up]. *)
Fixpoint spread (gap_on : TraceDir) (moves : list TraceDir) (s : u32string)
    (i : nat) : u32string :=
  match moves with
  | [] => []
  | d :: moves =>
      if decide (d = gap_on) then gap_char :: spread gap_on moves s i
      else (s !!! i) :: spread gap_on moves s (S i)
  end.

(** The same along the path as the loop walks it, from the last cell to
    the first: the characters before index [r], last first. *)
Fixpoint gather (gap_on : TraceDir) (moves : list TraceDir) (s : u32string)
    (r : nat) : u32string :=
  match moves with
  | [] => []
  | d :: moves =>
      if decide (d = gap_on) then gap_char :: gather gap_on moves s r
      else (s !!! (r - 1)%nat) :: gather gap_on moves s (r - 1)
  end.

(** A matrix that has the pair of "A" and "B" under both orders, with
    different scores: 0 under the canonical key "AB", -100 under "BA". *)
Definition both_orders_matrix : gmap u32string float :=
  <[ U "BA" := float_of_Z (-100) ]> {[ U "AB" := float_of_Z 0 ]}.

(** * Properties of [levenshtein] and [levenshtein_all] *)

Section Ranker.
Implicit Types (strings : list u32string) (t : pair_result).

(** *** The stable sort *)

Context {A : Type} (key : A → Z).
Let comp (x y : A) : bool := key x <? key y.

Lemma stable_insert_perm x (l : list A) :
  stable_insert comp x l ≡ₚ x :: l.
Proof.
  induction l as [|y l IH]; simpl; [done|].
  destruct (comp y x); [|done].
  rewrite IH. apply Permutation_swap.
Qed.

Lemma stable_sort_perm (l : list A) : stable_sort comp l ≡ₚ l.
Proof.
  induction l as [|x l IH]; simpl; [done|].
  by rewrite stable_insert_perm, IH.
Qed.

Lemma stable_insert_sorted x (l : list A) :
  StronglySorted (λ a b, key a ≤ key b) l →
  StronglySorted (λ a b, key a ≤ key b) (stable_insert comp x l).
Proof.
  induction 1 as [|y l Hl IH Hy]; simpl.
  - repeat constructor.
  - unfold comp at 1. destruct (Z.ltb_spec (key y) (key x)) as [Hlt|Hge].
    + constructor; [done|].
      rewrite stable_insert_perm. constructor; [lia|done].
    + constructor; [by constructor|].
      constructor; [done|].
      eapply Forall_impl; [exact Hy|]. simpl. intros; lia.
Qed.

Lemma stable_sort_sorted (l : list A) :
  StronglySorted (λ a b, key a ≤ key b) (stable_sort comp l).
Proof.
  induction l as [|x l IH]; simpl; [constructor|].
  by apply stable_insert_sorted.
Qed.

(** Elements of one key keep the order they had. *)
Lemma stable_insert_filter d x (l : list A) :
  filter (λ a, key a = d) (stable_insert comp x l)
  = filter (λ a, key a = d) (x :: l).
Proof.
  induction l as [|y l IH]; simpl; [done|].
  unfold comp at 1. destruct (Z.ltb_spec (key y) (key x)) as [Hlt|Hge]; [|done].
  rewrite (filter_cons _ y), IH, !(filter_cons _ x), !(filter_cons _ y).
  repeat case_decide; try done; lia.
Qed.

Lemma stable_sort_filter d (l : list A) :
  filter (λ a, key a = d) (stable_sort comp l) = filter (λ a, key a = d) l.
Proof.
  induction l as [|x l IH]; simpl; [done|].
  by rewrite stable_insert_filter, !filter_cons, IH.
Qed.

Lemma StronglySorted_lookup_lt (R : relation A) (l : list A) i j x y :
  StronglySorted R l → (i < j)%nat →
  l !! i = Some x → l !! j = Some y → R x y.
Proof.
  intros Hl. revert i j. induction Hl as [|z l Hl IH Hz]; intros i j Hij Hi Hj.
  - done.
  - destruct j as [|j]; [lia|]. destruct i as [|i]; simplify_eq/=.
    + rewrite Forall_forall in Hz. eapply Hz, list_elem_of_lookup_2, Hj.
    + eapply (IH i j); [lia|done..].
Qed.

Lemma filter_lookup_lt (P : A → Prop) `{!∀ a, Decision (P a)}
    (l : list A) i j x y :
  (i < j)%nat → l !! i = Some x → l !! j = Some y → P x → P y →
  ∃ i' j', (i' < j')%nat ∧
           filter P l !! i' = Some x ∧ filter P l !! j' = Some y.
Proof.
  revert i j. induction l as [|z l IH]; intros i j Hij Hi Hj Hx Hy; [done|].
  destruct j as [|j]; [lia|]. destruct i as [|i]; simplify_eq/=.
  - rewrite filter_cons_True by done.
    assert (y ∈ filter P l) as Hin.
    { apply list_elem_of_filter. eauto using list_elem_of_lookup_2. }
    apply list_elem_of_lookup_1 in Hin as [j' Hj'].
    exists 0%nat, (S j'). split; [lia|done].
  - destruct (IH i j) as (i' & j' & ? & ? & ?); [lia|done..|].
    rewrite filter_cons. case_decide.
    + exists (S i'), (S j'). split; [lia|done].
    + by exists i', j'.
Qed.

(** Of two results of [stable_sort] with the same key, the earlier one
    was the earlier one of the input, whenever the input is ordered by a
    relation [R]. *)
Lemma stable_sort_keeps_order (R : relation A) (l : list A) i j x y :
  StronglySorted R l → (i < j)%nat →
  stable_sort comp l !! i = Some x → stable_sort comp l !! j = Some y →
  key x = key y → R x y.
Proof.
  intros Hl Hij Hi Hj Hxy.
  destruct (filter_lookup_lt (λ a, key a = key y) (stable_sort comp l) i j x y)
    as (i' & j' & Hij' & Hi' & Hj'); [done..|].
  rewrite stable_sort_filter in Hi', Hj'.
  eapply (StronglySorted_lookup_lt R (filter (λ a, key a = key y) l) i' j');
    [|done..].
  clear -Hl. induction Hl as [|z l Hl IH Hz]; [constructor|].
  rewrite filter_cons. case_decide; [|done].
  constructor; [done|]. rewrite Forall_forall in Hz |- *.
  intros a [_ Ha]%list_elem_of_filter. auto.
Qed.
(** Two lists in the order of their keys that hold, for every key, the same
    elements in the same order are one list: the result of a stable sort
    does not depend on how it sorts. *)
Lemma sorted_filter_unique (l1 l2 : list A) :
  StronglySorted (λ a b, key a ≤ key b) l1 →
  StronglySorted (λ a b, key a ≤ key b) l2 →
  (∀ d, filter (λ a, key a = d) l1 = filter (λ a, key a = d) l2) →
  l1 = l2.
Proof.
  intros H1. revert l2. induction H1 as [|x l1 Hl1 IH Hx]; intros l2 H2 Hf.
  - destruct l2 as [|y l2]; [done|].
    specialize (Hf (key y)). rewrite filter_cons_True in Hf by done. done.
  - destruct H2 as [|y l2 Hl2 Hy].
    { specialize (Hf (key x)). rewrite filter_cons_True in Hf by done. done. }
    rewrite Forall_forall in Hx, Hy.
    assert (key x = key y) as Hxy.
    { assert (x ∈ y :: l2) as Hin.
      { eapply (list_elem_of_filter (λ a, key a = key x)).
        rewrite <-Hf, filter_cons_True by done. left. }
      assert (y ∈ x :: l1) as Hin'.
      { eapply (list_elem_of_filter (λ a, key a = key y)).
        rewrite Hf, filter_cons_True by done. left. }
      apply elem_of_cons in Hin as [->|Hin]; [done|].
      apply elem_of_cons in Hin' as [->|Hin']; [done|].
      specialize (Hx y Hin'). specialize (Hy x Hin). lia. }
    pose proof (Hf (key x)) as Hfx.
    rewrite !filter_cons_True in Hfx by done. injection Hfx as -> Hfx.
    f_equal. apply IH; [done|]. intros d.
    destruct (decide (d = key y)) as [->|Hd]; [done|].
    specialize (Hf d). by rewrite !filter_cons_False in Hf by done.
Qed.

Lemma stable_sort_unique (l l' : list A) :
  StronglySorted (λ a b, key a ≤ key b) l' →
  (∀ d, filter (λ a, key a = d) l' = filter (λ a, key a = d) l) →
  l' = stable_sort comp l.
Proof.
  intros Hsorted Hf. apply sorted_filter_unique; [done| |].
  - apply stable_sort_sorted.
  - intros d. by rewrite stable_sort_filter.
Qed.
End Ranker.

Section Enumeration.
Implicit Types (strings : list u32string) (t : pair_result).

Lemma foldl_push {B C} (g : C → B) (l : list C) (acc : list B) :
  foldl (λ acc x, acc ++ [g x]) acc l = acc ++ (g <$> l).
Proof.
  revert acc. induction l as [|x l IH]; intros acc; simpl.
  - by rewrite app_nil_r.
  - by rewrite IH, <-app_assoc.
Qed.

Lemma foldl_extend {B C} (f : list B → C → list B) (g : C → list B)
    (l : list C) (acc : list B) :
  (∀ acc x, f acc x = acc ++ g x) →
  foldl f acc l = acc ++ (l ≫= g).
Proof.
  intros Hf. revert acc. induction l as [|x l IH]; intros acc; simpl.
  - by rewrite app_nil_r.
  - by rewrite IH, Hf, <-app_assoc.
Qed.

Lemma all_pairs_rows strings :
  all_pairs strings
  = range 0 (Z.of_nat (length strings) - 1) ≫= row_pairs strings.
Proof.
  unfold all_pairs. cbv zeta.
  rewrite (foldl_extend _ (row_pairs strings)); [done|].
  intros acc r. apply foldl_push.
Qed.

Lemma rows_upto_S strings (m : nat) :
  range 0 (Z.of_nat (S m)) ≫= row_pairs strings
  = (range 0 (Z.of_nat m) ≫= row_pairs strings)
      ++ row_pairs strings (Z.of_nat m).
Proof.
  unfold range. rewrite !Z.sub_0_r, seqZ_S, bind_app. simpl.
  by rewrite app_nil_r.
Qed.

Lemma length_row_pairs strings r :
  length (row_pairs strings r)
  = Z.to_nat (Z.of_nat (length strings) - (r + 1)).
Proof. unfold row_pairs, range. by rewrite length_fmap, length_seqZ. Qed.

Lemma length_rows_upto strings (m : nat) :
  (m < length strings)%nat →
  (2 * length (range 0 (Z.of_nat m) ≫= row_pairs strings)
   = m * (2 * length strings - 1 - m))%nat.
Proof.
  induction m as [|m IH]; intros Hm; [done|].
  rewrite rows_upto_S, length_app, length_row_pairs.
  specialize (IH ltac:(lia)).
  destruct (Nat.le_exists_sub (S (S m)) (length strings)) as [d [Hd _]];
    [lia|].
  rewrite Hd in *.
  replace (Z.to_nat (Z.of_nat (d + S (S m)) - (Z.of_nat m + 1)))
    with (S d) by lia.
  replace (2 * (d + S (S m)) - 1 - m)%nat with (m + 2 * d + 3)%nat in IH by lia.
  replace (2 * (d + S (S m)) - 1 - S m)%nat with (m + 2 * d + 2)%nat by lia.
  set (L := length _) in *. clearbody L. clear Hd Hm. nia.
Qed.

Lemma length_all_pairs strings :
  (2 * length (all_pairs strings)
   = length strings * (length strings - 1))%nat.
Proof.
  rewrite all_pairs_rows.
  destruct (length strings) as [|n] eqn:Hn; [done|].
  replace (Z.of_nat (S n) - 1) with (Z.of_nat n) by lia.
  pose proof (length_rows_upto strings n) as H. rewrite Hn in H.
  rewrite H by lia.
  replace (2 * S n - 1 - n)%nat with (S n) by lia.
  replace (S n - 1)%nat with n by lia. lia.
Qed.

Lemma elem_of_row_pairs strings r t :
  t ∈ row_pairs strings r →
  get1 t = r ∧ r < get2 t < Z.of_nat (length strings).
Proof.
  unfold row_pairs, range.
  intros (c & -> & Hc%elem_of_seqZ)%list_elem_of_fmap.
  unfold get1, get2; simpl. lia.
Qed.

Lemma seqZ_sorted (lo n : Z) : StronglySorted Z.lt (seqZ lo n).
Proof.
  revert lo. induction n as [|n Hn IH|] using (Z.succ_pred_induction 0);
    intros lo.
  - rewrite seqZ_nil by lia. constructor.
  - rewrite seqZ_cons, Z.pred_succ by lia. constructor; [apply IH|].
    apply Forall_forall. intros c Hc%elem_of_seqZ. lia.
  - rewrite seqZ_nil by lia. constructor.
Qed.

Lemma row_pairs_sorted strings r :
  StronglySorted row_major (row_pairs strings r).
Proof.
  unfold row_pairs, range.
  apply (StronglySorted_fmap _ Z.lt); [|apply seqZ_sorted].
  intros c1 c2 Hc. right. unfold get1, get2; simpl. lia.
Qed.

Lemma rows_upto_sorted strings (m : nat) :
  StronglySorted row_major (range 0 (Z.of_nat m) ≫= row_pairs strings).
Proof.
  induction m as [|m IH]; [constructor|].
  rewrite rows_upto_S. apply StronglySorted_app_2; [|done|].
  - intros t1 t2 (r & Ht1 & Hr)%list_elem_of_bind Ht2.
    apply elem_of_row_pairs in Ht1 as [Ht1 _], Ht2 as [Ht2 _].
    unfold range in Hr. apply elem_of_seqZ in Hr. left. lia.
  - apply row_pairs_sorted.
Qed.

Lemma all_pairs_sorted strings : StronglySorted row_major (all_pairs strings).
Proof.
  rewrite all_pairs_rows.
  destruct (length strings) as [|n]; [constructor|].
  replace (Z.of_nat (S n) - 1) with (Z.of_nat n) by lia.
  apply rows_upto_sorted.
Qed.
End Enumeration.

Section Levenshtein.
Implicit Types (a b : u32string).

(** The rolling row keeps its [len2 + 1] cells, so the loops, whose [c]
    stays below [len2], index it inside. *)
Lemma levenshtein_row_length (str1 str2 : u32string) (len2 r : Z)
    (dist : list Z) :
  length (levenshtein_row str1 str2 len2 dist r) = length dist.
Proof.
  unfold levenshtein_row.
  assert (∀ cs prev row,
            length (foldl (levenshtein_cell str1 str2 r) (prev, row) cs).2
            = length row) as Hcells; [|apply Hcells].
  induction cs as [|c cs IH]; intros prev row; [done|].
  change (foldl (levenshtein_cell str1 str2 r) (prev, row) (c :: cs))
    with (foldl (levenshtein_cell str1 str2 r)
                (levenshtein_cell str1 str2 r (prev, row) c) cs).
  unfold levenshtein_cell at 2, exchange.
  by rewrite IH, length_insert.
Qed.

Lemma levenshtein_nil_l b : levenshtein [] b = Z.of_nat (length b).
Proof. reflexivity. Qed.

Lemma levenshtein_nil_r a : levenshtein a [] = Z.of_nat (length a).
Proof. destruct a; reflexivity. Qed.

Lemma edit_distance_nil_l b : edit_distance [] b = Z.of_nat (length b).
Proof. by destruct b. Qed.

Lemma edit_distance_nil_r a : edit_distance a [] = Z.of_nat (length a).
Proof. by destruct a. Qed.

Lemma edit_distance_cons x a y b :
  edit_distance (x :: a) (y :: b)
  = min3 (edit_distance a b + (if decide (x = y) then 0 else 1))
         (edit_distance (x :: a) b + 1)
         (edit_distance a (y :: b) + 1).
Proof. reflexivity. Qed.

(** The distance the documentation names is symmetric. *)
Lemma edit_distance_sym a b : edit_distance a b = edit_distance b a.
Proof.
  revert b. induction a as [|x a IHa]; intros b.
  - by rewrite edit_distance_nil_l, edit_distance_nil_r.
  - induction b as [|y b IHb]; [done|].
    rewrite !edit_distance_cons, IHb, (IHa b), (IHa (y :: b)).
    unfold min3. repeat case_decide; simplify_eq; lia.
Qed.

Example levenshtein_abc_xyz : levenshtein (U "abc") (U "xyz") = 3.
Proof. reflexivity. Qed.

Example levenshtein_kitten_sitting :
  levenshtein (U "kitten") (U "sitting") = 3.
Proof. reflexivity. Qed.

(** C7, evaluated: [dist[0]] keeps the value 0 that [std::iota] gave it, so
    from the second row on the candidate [dist[c] + 1] at [c = 0] is 1
    whatever the row.  On "ab" against "c" the program answers 1, on "c"
    against "ab" it answers 2, and the edit distance of the two strings is 2
    both ways. *)
Theorem levenshtein_ab_c_asymmetric :
  levenshtein (U "ab") (U "c") = 1
  ∧ levenshtein (U "c") (U "ab") = 2
  ∧ edit_distance (U "ab") (U "c") = 2
  ∧ edit_distance (U "c") (U "ab") = 2.
Proof. repeat split; reflexivity. Qed.

(** C8, evaluated: "ab" and "c" have no character in common and the longer
    has two characters, yet the program answers 1 (the same stale [dist[0]]);
    on the fixture "abc" against "xyz" it answers 3. *)
Theorem levenshtein_ab_c_disjoint :
  (∀ x, x ∈ U "ab" → x ∉ U "c")
  ∧ Z.max (Z.of_nat (length (U "ab"))) (Z.of_nat (length (U "c"))) = 2
  ∧ levenshtein (U "ab") (U "c") = 1
  ∧ levenshtein (U "abc") (U "xyz") = 3.
Proof.
  split; [|repeat split; reflexivity].
  intros x Hx Hc. apply list_elem_of_In in Hx, Hc. vm_compute in Hx, Hc.
  destruct Hc as [<-|[]]. destruct Hx as [?|[?|[]]]; discriminate.
Qed.
End Levenshtein.

(** C5.  For a list of [n] strings [levenshtein_all] returns
    [n * (n - 1) / 2] tuples; their distances never decrease along the
    result; and of two tuples with the same distance the earlier one comes
    first in the row-major enumeration of the pairs [(i, j)]. *)
Theorem levenshtein_all_ranked (strings : list u32string) :
  let out := levenshtein_all strings in
  let n := length strings in
  length out = (n * (n - 1) / 2)%nat
  ∧ (∀ a b ta tb, (a < b)%nat → out !! a = Some ta → out !! b = Some tb →
       get0 ta ≤ get0 tb)
  ∧ (∀ a b ta tb, (a < b)%nat → out !! a = Some ta → out !! b = Some tb →
       get0 ta = get0 tb → row_major ta tb).
Proof.
  cbv zeta. unfold levenshtein_all. split; [|split].
  - rewrite (Permutation_length (stable_sort_perm get0 _)).
    pose proof (length_all_pairs strings) as H.
    apply (Nat.div_unique_exact _ 2); lia.
  - intros a b ta tb Hab Ha Hb.
    exact (StronglySorted_lookup_lt _ _ a b ta tb
             (stable_sort_sorted get0 _) Hab Ha Hb).
  - intros a b ta tb Hab Ha Hb Heq.
    exact (stable_sort_keeps_order get0 row_major _ a b ta tb
             (all_pairs_sorted strings) Hab Ha Hb Heq).
Qed.

(** The ranking of four strings, evaluated. *)
Example levenshtein_all_four :
  levenshtein_all [U "ab"; U "c"; U "abc"; U "b"]
  = [(1, 0, 1); (1, 0, 2); (1, 0, 3); (1, 1, 3); (1, 2, 3); (2, 1, 2)].
Proof. reflexivity. Qed.

(** ** What [levenshtein] computes *)

Section Rolling.
Context (str1 str2 : u32string).

Lemma levenshtein_cell_eq (r c : nat) (prev : Z) (dist : list Z) :
  levenshtein_cell str1 str2 (Z.of_nat r) (prev, dist) (Z.of_nat c)
  = (dist !!! S c,
     <[S c := min3 (prev + subst_cost str1 str2 r c)
                   (dist !!! c + 1) (dist !!! S c + 1)]> dist).
Proof.
  unfold levenshtein_cell, exchange, subst_cost.
  replace (Z.to_nat (Z.of_nat c + 1)) with (S c) by lia.
  by rewrite !Nat2Z.id.
Qed.

Lemma range_S (n : nat) :
  range 0 (Z.of_nat (S n)) = range 0 (Z.of_nat n) ++ [Z.of_nat n].
Proof. unfold range. rewrite !Z.sub_0_r, seqZ_S. by rewrite Z.add_0_l. Qed.

(** The sweep of one row: a property [New] of the cells of the row follows
    from a property [Old] of the cells of the row before, when the three
    candidates of each cell carry it over.  Cell 0 is not assigned. *)
Lemma levenshtein_row_rule (Old New : nat → Z → Prop) (r n2 : nat)
    (dist : list Z) :
  length dist = S n2 →
  (∀ j, (j ≤ n2)%nat → Old j (dist !!! j)) →
  New 0%nat (dist !!! 0%nat) →
  (∀ c d l u, (c < n2)%nat → corner Old r c d → New c l → Old (S c) u →
     New (S c) (min3 (d + subst_cost str1 str2 r c) (l + 1) (u + 1))) →
  length (levenshtein_row str1 str2 (Z.of_nat n2) dist (Z.of_nat r)) = S n2
  ∧ ∀ j, (j ≤ n2)%nat →
      New j (levenshtein_row str1 str2 (Z.of_nat n2) dist (Z.of_nat r) !!! j).
Proof.
  intros Hlen Hold Hnew0 Hstep. unfold levenshtein_row.
  assert (∀ k, (k ≤ n2)%nat →
            let st := foldl (levenshtein_cell str1 str2 (Z.of_nat r))
                            (Z.of_nat r, dist) (range 0 (Z.of_nat k)) in
            length st.2 = S n2
            ∧ corner Old r k st.1
            ∧ (∀ j, (j ≤ k)%nat → New j (st.2 !!! j))
            ∧ (∀ j, (k < j ≤ n2)%nat → Old j (st.2 !!! j))) as Hsweep.
  { induction k as [|k IH]; intros Hk; cbv zeta.
    - simpl. split_and!; [done|done| |by auto with lia].
      intros j Hj. by replace j with 0%nat by lia.
    - destruct (IH ltac:(lia)) as (Hl & Hc & Hn & Ho). cbv zeta in *.
      rewrite range_S, foldl_snoc.
      destruct (foldl _ _ (range 0 (Z.of_nat k))) as [prev row].
      cbn [fst snd] in *. rewrite levenshtein_cell_eq. cbn [fst snd].
      split_and!.
      + by rewrite length_insert.
      + unfold corner. rewrite decide_False by lia. apply Ho. lia.
      + intros j Hj. destruct (decide (j = S k)) as [->|Hne].
        * rewrite list_lookup_total_insert_eq by lia.
          apply Hstep; [lia|done|apply Hn; lia|apply Ho; lia].
        * rewrite list_lookup_total_insert_ne by done. apply Hn. lia.
      + intros j Hj. rewrite list_lookup_total_insert_ne by lia. apply Ho. lia. }
  destruct (Hsweep n2 ltac:(lia)) as (Hl & _ & Hn & _). done.
Qed.

(** The whole computation, for two strings that are not empty: a property
    [Inv r c] of cell [c] after [r] rows holds of the result at
    [(len1, len2)] when it holds of the initial row [0, 1, ..., len2], is
    kept by the cell 0 that no row assigns, and is carried over by the
    three candidates of every other cell. *)
Lemma levenshtein_rule (Inv : nat → nat → Z → Prop) :
  str1 ≠ [] → str2 ≠ [] →
  (∀ j, (j ≤ length str2)%nat → Inv 0%nat j (Z.of_nat j)) →
  (∀ r v, (r < length str1)%nat → Inv r 0%nat v → Inv (S r) 0%nat v) →
  (∀ r c d l u, (r < length str1)%nat → (c < length str2)%nat →
     corner (Inv r) r c d → Inv (S r) c l → Inv r (S c) u →
     Inv (S r) (S c) (min3 (d + subst_cost str1 str2 r c) (l + 1) (u + 1))) →
  Inv (length str1) (length str2) (levenshtein str1 str2).
Proof.
  intros Hne1 Hne2 Hinit Hzero Hstep. unfold levenshtein. cbv zeta.
  destruct (Z.eqb_spec (Z.of_nat (length str1)) 0) as [H1|_].
  { by destruct str1. }
  destruct (Z.eqb_spec (Z.of_nat (length str2)) 0) as [H2|_].
  { by destruct str2. }
  set (n2 := length str2).
  replace (Z.to_nat (Z.of_nat n2 + 1)) with (S n2) by lia.
  rewrite Nat2Z.id.
  assert (∀ k, (k ≤ length str1)%nat →
            let dist := foldl (levenshtein_row str1 str2 (Z.of_nat n2))
                              (iota (S n2)) (range 0 (Z.of_nat k)) in
            length dist = S n2
            ∧ ∀ j, (j ≤ n2)%nat → Inv k j (dist !!! j)) as Hrows.
  { induction k as [|k IH]; intros Hk; cbv zeta.
    - simpl. unfold iota. split; [by rewrite length_fmap, length_seq|].
      intros j Hj.
      rewrite list_lookup_total_alt, list_lookup_fmap, lookup_seq_lt by lia.
      by apply Hinit.
    - destruct (IH ltac:(lia)) as [Hl Hinv]. cbv zeta in *.
      rewrite range_S, foldl_snoc.
      apply (levenshtein_row_rule (Inv k) (Inv (S k))); [done|done| |].
      + apply Hzero; [lia|]. apply Hinv. lia.
      + intros c d l u Hc. apply Hstep; lia. }
  destruct (Hrows (length str1) ltac:(lia)) as [_ Hinv].
  apply Hinv. lia.
Qed.
End Rolling.

Section Distance.
Implicit Types (a b : u32string) (x y : char32_t).

Lemma edit_distance_nonneg a b : 0 ≤ edit_distance a b.
Proof.
  revert b. induction a as [|x a IHa]; intros b.
  - rewrite edit_distance_nil_l. lia.
  - induction b as [|y b IHb]; [rewrite edit_distance_nil_r; lia|].
    rewrite edit_distance_cons. pose proof (IHa b). pose proof (IHa (y :: b)).
    unfold min3. case_decide; lia.
Qed.

Lemma edit_distance_length a b :
  Z.of_nat (length a) - Z.of_nat (length b) ≤ edit_distance a b.
Proof.
  revert b. induction a as [|x a IHa]; intros b.
  - rewrite edit_distance_nil_l. simpl. lia.
  - induction b as [|y b IHb]; [rewrite edit_distance_nil_r; lia|].
    rewrite edit_distance_cons. pose proof (IHa b). pose proof (IHa (y :: b)).
    simpl length in *. unfold min3. case_decide; lia.
Qed.

Lemma edit_distance_refl a : edit_distance a a = 0.
Proof.
  induction a as [|x a IH]; [done|].
  rewrite edit_distance_cons, IH, decide_True by done.
  pose proof (edit_distance_nonneg (x :: a) a).
  pose proof (edit_distance_nonneg a (x :: a)). unfold min3. lia.
Qed.

(** Two ways of taking the least of nine sums. *)
Lemma min3_exchange (A B C D E F G H I c c0 : Z) :
  min3 (min3 (A + c) (B + 1) (C + 1) + c0)
       (min3 (D + c) (E + 1) (F + 1) + 1)
       (min3 (G + c) (H + 1) (I + 1) + 1)
  = min3 (min3 (A + c0) (D + 1) (G + 1) + c)
         (min3 (B + c0) (E + 1) (H + 1) + 1)
         (min3 (C + c0) (F + 1) (I + 1) + 1).
Proof.
  unfold min3. rewrite <-!Z.add_min_distr_r.
  apply Z.le_antisymm; repeat apply Z.min_glb; rewrite !Z.min_le_iff; lia.
Qed.

(** The recurrence of the edit distance on the last characters, which is
    the one a table filled row by row follows. *)
Lemma edit_distance_snoc a b x y :
  edit_distance (a ++ [x]) (b ++ [y])
  = min3 (edit_distance a b + (if decide (x = y) then 0 else 1))
         (edit_distance (a ++ [x]) b + 1)
         (edit_distance a (b ++ [y]) + 1).
Proof.
  revert b. induction a as [|x0 a IHa]; intros b.
  - induction b as [|y0 b IHb]; [done|].
    rewrite <-!app_comm_cons. rewrite !app_nil_l in *.
    rewrite (edit_distance_cons x [] y0 (b ++ [y])), IHb.
    rewrite (edit_distance_cons x [] y0 b).
    rewrite !edit_distance_nil_l, !length_app. simpl length.
    unfold min3. repeat case_decide; lia.
  - induction b as [|y0 b IHb].
    + rewrite <-!app_comm_cons. rewrite !app_nil_l in *.
      rewrite (edit_distance_cons x0 (a ++ [x]) y []).
      specialize (IHa []). rewrite app_nil_l in IHa. rewrite IHa.
      rewrite (edit_distance_cons x0 a y []).
      rewrite !edit_distance_nil_r, !length_app. simpl length.
      unfold min3. repeat case_decide; lia.
    + pose proof (IHa b) as H1. pose proof (IHa (y0 :: b)) as H3.
      rewrite <-!app_comm_cons in *.
      rewrite (edit_distance_cons x0 (a ++ [x]) y0 (b ++ [y])).
      rewrite H1, IHb, H3.
      rewrite (edit_distance_cons x0 a y0 b).
      rewrite (edit_distance_cons x0 (a ++ [x]) y0 b).
      rewrite (edit_distance_cons x0 a y0 (b ++ [y])).
      apply min3_exchange.
Qed.

Lemma edit_distance_take_S a b (r c : nat) :
  (r < length a)%nat → (c < length b)%nat →
  edit_distance (take (S r) a) (take (S c) b)
  = min3 (edit_distance (take r a) (take c b) + subst_cost a b r c)
         (edit_distance (take (S r) a) (take c b) + 1)
         (edit_distance (take r a) (take (S c) b) + 1).
Proof.
  intros Hr Hc.
  rewrite (take_S_r a r (a !!! r)), (take_S_r b c (b !!! c))
    by (by apply list_lookup_lookup_total_lt).
  apply edit_distance_snoc.
Qed.

Lemma edit_distance_take_0 a (r : nat) :
  (r ≤ length a)%nat → edit_distance (take r a) [] = Z.of_nat r.
Proof. intros Hr. rewrite edit_distance_nil_r, length_take. lia. Qed.
End Distance.

Section Levenshtein_values.
Implicit Types (a b s : u32string).

(** The result is not negative, not below [len2 - len1] and, when [str2]
    is not empty, not above [len2]: cell 0 of the row stays 0, so every
    cell [c] stays at most [c]. *)
Lemma levenshtein_range a b :
  0 ≤ levenshtein a b
  ∧ Z.of_nat (length b) - Z.of_nat (length a) ≤ levenshtein a b
  ∧ (b ≠ [] → levenshtein a b ≤ Z.of_nat (length b)).
Proof.
  destruct (decide (a = [])) as [->|Ha].
  { rewrite levenshtein_nil_l. simpl. lia. }
  destruct (decide (b = [])) as [->|Hb].
  { rewrite levenshtein_nil_r. simpl. split_and!; [lia..|done]. }
  cut (0 ≤ levenshtein a b
       ∧ Z.of_nat (length b) - Z.of_nat (length a) ≤ levenshtein a b
       ∧ levenshtein a b ≤ Z.of_nat (length b)); [tauto|].
  apply (levenshtein_rule a b
           (λ r c v, 0 ≤ v ∧ Z.of_nat c - Z.of_nat r ≤ v ∧ v ≤ Z.of_nat c));
    [done|done|intros; lia|intros; lia|].
  intros r c d l u Hr Hc Hd Hl Hu. unfold corner in Hd.
  unfold min3, subst_cost. repeat case_decide; lia.
Qed.

(** The result is never above the edit distance. *)
Lemma levenshtein_le_edit_distance a b :
  levenshtein a b ≤ edit_distance a b.
Proof.
  destruct (decide (a = [])) as [->|Ha].
  { by rewrite levenshtein_nil_l, edit_distance_nil_l. }
  destruct (decide (b = [])) as [->|Hb].
  { by rewrite levenshtein_nil_r, edit_distance_nil_r. }
  rewrite <-(take_ge a (length a)), <-(take_ge b (length b)) at 2 by done.
  apply (levenshtein_rule a b
           (λ r c v, v ≤ edit_distance (take r a) (take c b))); [done|done|..].
  - intros j Hj. rewrite take_0, edit_distance_nil_l, length_take. lia.
  - intros r v Hr. rewrite take_0, !edit_distance_nil_r, !length_take. lia.
  - intros r c d l u Hr Hc Hd Hl Hu.
    rewrite edit_distance_take_S by done.
    assert (d ≤ edit_distance (take r a) (take c b)) as Hd'.
    { unfold corner in Hd. case_decide as Hc0; [|done].
      subst c d. rewrite take_0, edit_distance_take_0; lia. }
    unfold min3. lia.
Qed.

(** The result is 0 for equal strings only: a cell other than those of
    column 0 is 0 only at the end of a diagonal of matches that starts in
    the corner. *)
Lemma levenshtein_eq_of_zero a b : levenshtein a b = 0 → a = b.
Proof.
  destruct (decide (a = [])) as [->|Ha].
  { rewrite levenshtein_nil_l. destruct b; [done|simpl; lia]. }
  destruct (decide (b = [])) as [->|Hb].
  { rewrite levenshtein_nil_r. destruct a; [done|simpl; lia]. }
  intros Hzero.
  cut (0 ≤ levenshtein a b
       ∧ ((1 ≤ length b)%nat → levenshtein a b = 0 →
          length a = length b ∧ take (length a) a = take (length b) b)).
  { intros [_ H]. destruct H as [Hlen Htake]; [destruct b; simpl; [done|lia]|done|].
    by rewrite !take_ge in Htake by lia. }
  apply (levenshtein_rule a b
           (λ r c v, 0 ≤ v ∧ ((1 ≤ c)%nat → v = 0 →
                              r = c ∧ take r a = take c b))); [done|done|..].
  - intros j Hj. split; [lia|]. intros ? ?.
    assert (j = 0%nat) by lia. lia.
  - intros r v Hr [Hv _]. split; [done|lia].
  - intros r c d l u Hr Hc Hd [Hl _] [Hu _].
    assert (0 ≤ d ∧ (d = 0 → r = c ∧ take r a = take c b)) as [Hd0 Hd1].
    { unfold corner in Hd. case_decide as Hc0.
      - subst c d. split; [lia|]. intros ?. assert (r = 0%nat) as -> by lia.
        done.
      - destruct Hd as [? Hd]. split; [done|]. apply Hd. lia. }
    unfold min3, subst_cost. case_decide as Hch.
    + split; [lia|]. intros _ Hmin.
      destruct Hd1 as [-> Htake]; [lia|]. split; [done|].
      rewrite (take_S_r a c (a !!! c)), (take_S_r b c (b !!! c))
        by (by apply list_lookup_lookup_total_lt).
      by rewrite Htake, Hch.
    + split; lia.
Qed.

End Levenshtein_values.

(** * Properties of [align_all] *)

(** ** Reasoning about outcomes *)

Section Outcome.
Context {A B : Type}.
Implicit Types (Q : A → Prop) (E : exception → Prop) (m : outcome A).

Lemma post_mono Q Q' E E' m :
  (∀ a, Q a → Q' a) → (∀ e, E e → E' e) → post Q E m → post Q' E' m.
Proof. destruct m; simpl; auto. Qed.

Lemma post_bind (Q : B → Prop) E m (f : A → outcome B) :
  post (λ a, post Q E (f a)) E m → post Q E (m ≫= f).
Proof. by destruct m. Qed.

Lemma post_Return Q E m a : m = Return a → post Q E m → Q a.
Proof. by intros ->. Qed.

Lemma post_Throw Q E m e : m = Throw e → post Q E m → E e.
Proof. by intros ->. Qed.

Lemma post_eq m a : post (λ a', a' = a) (λ _, False) m → m = Return a.
Proof. destruct m; simpl; by intros; subst. Qed.

Lemma post_ends Q E m :
  post Q E m → (∃ a, m = Return a ∧ Q a) ∨ (∃ e, m = Throw e ∧ E e).
Proof. destruct m; simpl; [eauto..|done|done]. Qed.

Lemma at_Some (v : list A) i x : v !! i = Some x → at_ v i = Return x.
Proof. unfold at_. by intros ->. Qed.

Lemma at_Return (v : list A) i x : at_ v i = Return x → v !! i = Some x.
Proof. unfold at_. destruct (v !! i); naive_solver. Qed.

Lemma at_long_Some (v : list A) (i : Z) x :
  0 ≤ i → v !! Z.to_nat i = Some x → at_long v i = Return x.
Proof.
  intros Hi Hx. unfold at_long.
  destruct (Z.ltb_spec i 0); [lia|]. by apply at_Some.
Qed.

Lemma settles_refl m : settles m m.
Proof. by intros _. Qed.

Lemma settles_bind m m' (f f' : A → outcome B) :
  settles m m' → (∀ a, settles (f a) (f' a)) → settles (m ≫= f) (m' ≫= f').
Proof.
  intros Hm Hf Hd. destruct m as [a| | |]; try done.
  - rewrite Hm by done. simpl. by apply Hf.
  - by rewrite Hm.
  - by rewrite Hm.
Qed.
End Outcome.

Section Loops.
Context {S I : Type}.
Implicit Types (body : S → I → outcome S) (l : list I) (s : S).

(** The rule of the [for] loop: [P i] is what holds before the iteration
    on the [i]-th index value. *)
Lemma post_for_each (P : nat → S → Prop) (E : exception → Prop) body l s :
  P 0%nat s →
  (∀ i x s, l !! i = Some x → P i s → post (P (Datatypes.S i)) E (body s x)) →
  post (P (length l)) E (for_each body s l).
Proof.
  revert P s. induction l as [|x l IH]; intros P s H0 Hbody; simpl; [done|].
  apply post_bind. eapply post_mono; [| |exact (Hbody 0%nat x s eq_refl H0)].
  - intros s' Hs'. apply (IH (λ i, P (Datatypes.S i))); [done|].
    intros i y s'' Hy. by apply (Hbody (Datatypes.S i)).
  - done.
Qed.

Lemma settles_for_each body body' l s :
  (∀ s x, settles (body s x) (body' s x)) →
  settles (for_each body s l) (for_each body' s l).
Proof.
  intros Hbody. revert s. induction l as [|x l IH]; intros s; simpl.
  - apply settles_refl.
  - apply settles_bind; [apply Hbody|]. intros s'. apply IH.
Qed.
End Loops.

(** ** The trace matrix *)

Section Matrix.
Implicit Types (trace : TraceMatrix) (cell : Trace).

Lemma cell_at_Some trace r c cell :
  lookup2 trace r c = Some cell → cell_at trace r c = Return cell.
Proof.
  unfold lookup2, cell_at. intros H.
  destruct (trace !! r) as [row|] eqn:Hr; [|done].
  rewrite (at_Some _ _ _ Hr). simpl in *. by apply at_Some.
Qed.

Lemma lookup2_dims rows cols trace r c :
  dims rows cols trace → (r ≤ rows)%nat → (c ≤ cols)%nat →
  is_Some (lookup2 trace r c).
Proof.
  intros [Hlen Hrows] Hr Hc. unfold lookup2.
  destruct (lookup_lt_is_Some_2 trace r) as [row Hrow]; [lia|].
  rewrite Hrow. simpl. apply lookup_lt_is_Some_2.
  rewrite Forall_forall in Hrows.
  rewrite (Hrows row) by eauto using list_elem_of_lookup_2. lia.
Qed.

Lemma lookup2_Some_dims rows cols trace r c cell :
  dims rows cols trace → lookup2 trace r c = Some cell →
  (r ≤ rows)%nat ∧ (c ≤ cols)%nat.
Proof.
  intros [Hlen Hrows]. unfold lookup2. intros H.
  destruct (trace !! r) as [row|] eqn:Hrow; [|done]. simpl in H.
  pose proof (lookup_lt_Some _ _ _ Hrow) as Hr.
  pose proof (lookup_lt_Some _ _ _ H) as Hc.
  rewrite Forall_forall in Hrows.
  rewrite (Hrows row) in Hc by eauto using list_elem_of_lookup_2. lia.
Qed.

(** A write inside the matrix succeeds, keeps the dimensions and changes
    the one cell. *)
Lemma cell_set_spec rows cols trace r c cell :
  dims rows cols trace → (r ≤ rows)%nat → (c ≤ cols)%nat →
  ∃ trace', cell_set trace r c cell = Return trace'
    ∧ dims rows cols trace'
    ∧ ∀ r' c', lookup2 trace' r' c'
               = if decide (r' = r ∧ c' = c) then Some cell
                 else lookup2 trace r' c'.
Proof.
  intros [Hlen Hrows] Hr Hc.
  destruct (lookup_lt_is_Some_2 trace r) as [row Hrow]; [lia|].
  assert (length row = (cols + 1)%nat) as Hrowlen.
  { rewrite Forall_forall in Hrows. eauto using list_elem_of_lookup_2. }
  destruct (lookup_lt_is_Some_2 row c) as [old Hold]; [lia|].
  exists (<[r := <[c := cell]> row]> trace). split; [|split].
  - unfold cell_set. rewrite (at_Some _ _ _ Hrow). simpl.
    by rewrite (at_Some _ _ _ Hold).
  - split; [by rewrite length_insert|].
    apply Forall_insert; [done|]. by rewrite length_insert.
  - intros r' c'. unfold lookup2. destruct (decide (r' = r)) as [->|Hne].
    + rewrite list_lookup_insert_eq by lia. simpl. rewrite Hrow. simpl.
      destruct (decide (c' = c)) as [->|Hnc].
      * rewrite list_lookup_insert_eq by lia. by rewrite decide_True.
      * rewrite list_lookup_insert_ne by done. rewrite decide_False by tauto.
        done.
    + rewrite list_lookup_insert_ne by done. rewrite decide_False by tauto.
      done.
Qed.

Lemma dims_new rows cols :
  dims rows cols (replicate (rows + 1) (replicate (cols + 1) Trace_new)).
Proof.
  split; [by rewrite length_replicate|].
  apply Forall_replicate. by rewrite length_replicate.
Qed.

Lemma lookup2_new rows cols r c :
  (r ≤ rows)%nat → (c ≤ cols)%nat →
  lookup2 (replicate (rows + 1) (replicate (cols + 1) Trace_new)) r c
  = Some Trace_new.
Proof.
  intros Hr Hc. unfold lookup2.
  rewrite lookup_replicate_2 by lia. simpl.
  by rewrite lookup_replicate_2 by lia.
Qed.
End Matrix.

(** ** "Build the matrix" *)

Section Build.
Context (weight : gmap u32string float) (gap skew : float).
Context (results : list u32string) (str : u32string) (rows cols : nat).
Hypothesis Hrect : rectangular results rows.
Hypothesis Hcols : length str = cols.

Lemma results_char r k row :
  (1 ≤ r ≤ rows)%nat → results !! k = Some row →
  ∃ x, row !! (r - 1)%nat = Some x.
Proof.
  intros Hr Hrow. apply lookup_lt_is_Some_2.
  unfold rectangular in Hrect. rewrite Forall_forall in Hrect.
  rewrite (Hrect row) by eauto using list_elem_of_lookup_2. lia.
Qed.

Lemma strings_char c :
  (1 ≤ c ≤ cols)%nat → ∃ y, str !! (c - 1)%nat = Some y.
Proof. intros Hc. apply lookup_lt_is_Some_2. lia. Qed.

(** The scan of the rows at cell [(r, c)] ends: with the best score, and
    then every pair it compared has a key in the matrix, or with the
    exception for the first pair that has none. *)
Lemma diagonal_of_post r c :
  (1 ≤ r ≤ rows)%nat → (1 ≤ c ≤ cols)%nat →
  post (λ _, ∀ k row x y,
          results !! k = Some row → row !! (r - 1)%nat = Some x →
          x ≠ gap_char → str !! (c - 1)%nat = Some y →
          is_Some (weight !! key_of x y))
       (missing_pair weight results str)
       (diagonal_of weight results str r c).
Proof.
  intros Hr Hc. unfold diagonal_of.
  eapply post_mono;
    [| |apply (post_for_each
                 (λ i _, ∀ k row x y,
                    (k < i)%nat →
                    results !! k = Some row → row !! (r - 1)%nat = Some x →
                    x ≠ gap_char → str !! (c - 1)%nat = Some y →
                    is_Some (weight !! key_of x y))
                 (missing_pair weight results str))].
  - intros d H k row x y Hrow. apply (H k); [|done]. rewrite length_seq.
    eauto using lookup_lt_Some.
  - done.
  - intros; lia.
  - intros i k d [-> Hi]%lookup_seq HP. simpl. unfold diagonal_step.
    destruct (lookup_lt_is_Some_2 results i Hi) as [row Hrow].
    destruct (results_char r i row Hr Hrow) as [x Hx].
    destruct (strings_char c Hc) as [y Hy].
    rewrite (at_Some _ _ _ Hrow). simpl.
    rewrite (at_Some _ _ _ Hx). simpl.
    rewrite (at_Some _ _ _ Hy). simpl.
    assert (∀ k row' x' y',
              (k < S i)%nat → results !! k = Some row' →
              row' !! (r - 1)%nat = Some x' → x' ≠ gap_char →
              str !! (c - 1)%nat = Some y' →
              (x ≠ gap_char → is_Some (weight !! key_of x y)) →
              is_Some (weight !! key_of x' y')) as Hstep.
    { intros k row' x' y' Hk Hrow' Hx' Hgap Hy' Hnew.
      destruct (decide (k = i)) as [->|Hne]; [|eapply (HP k); [lia|done..]].
      simplify_eq. auto. }
    case_decide as Hgap; simpl.
    + intros k row' x' y' ?????. eapply Hstep; [done..|]. intros ?; done.
    + destruct (weight !! key_of x y) as [value|] eqn:Hkey; simpl.
      * intros k row' x' y' ?????. eapply Hstep; [done..|].
        intros _. by eexists.
      * exists x, y. split; [|done].
        split; [done|]. split; [|eauto using list_elem_of_lookup_2].
        exists row. eauto using list_elem_of_lookup_2.
Qed.

Abbreviation grid_inv' := (grid_inv weight gap skew results str rows cols).

Lemma grid_inv_weaken (cd rd cd' rd' : nat → Prop) (id id' : nat → nat → Prop)
    trace :
  grid_inv' cd rd id trace →
  (∀ r, (1 ≤ r ≤ rows)%nat → cd' r → cd r) →
  (∀ c, (1 ≤ c ≤ cols)%nat → rd' c → rd c) →
  (∀ r c, (1 ≤ r ≤ rows)%nat → (1 ≤ c ≤ cols)%nat → id' r c → id r c) →
  grid_inv' cd' rd' id' trace.
Proof.
  intros (Hd & H00 & Hcol & Hrow & Hint) Hcd Hrd Hid.
  split_and!; [done..| | |]; eauto.
Qed.

(** The effect on the invariant of one write, to a cell other than
    [(0, 0)] and not a neighbour of a filled cell. *)
Lemma grid_inv_write (cd rd cd' rd' : nat → Prop) (id id' : nat → nat → Prop)
    trace trace' r0 c0 cell :
  grid_inv' cd rd id trace →
  dims rows cols trace' →
  (∀ r' c', lookup2 trace' r' c'
            = if decide (r' = r0 ∧ c' = c0) then Some cell
              else lookup2 trace r' c') →
  (r0 ≠ 0 ∨ c0 ≠ 0)%nat →
  (∀ r, (1 ≤ r ≤ rows)%nat → cd' r →
        if decide (r = r0 ∧ 0%nat = c0) then Trace.dir cell = up else cd r) →
  (∀ c, (1 ≤ c ≤ cols)%nat → rd' c →
        if decide (0%nat = r0 ∧ c = c0) then Trace.dir cell = left else rd c) →
  (∀ r c, (1 ≤ r ≤ rows)%nat → (1 ≤ c ≤ cols)%nat → id' r c →
          if decide (r = r0 ∧ c = c0)
          then interior_ok weight gap skew results str trace' r c
          else id r c ∧ ((r - 1)%nat ≠ r0 ∨ c ≠ c0)
               ∧ (r ≠ r0 ∨ (c - 1)%nat ≠ c0)
               ∧ ((r - 1)%nat ≠ r0 ∨ (c - 1)%nat ≠ c0)) →
  grid_inv' cd' rd' id' trace'.
Proof.
  intros (Hd & H00 & Hcol & Hrow & Hint) Hd' Hlk Hne Hcd Hrd Hid.
  split_and!; [done| | | |].
  - unfold dir_at. rewrite Hlk, decide_False by lia. done.
  - intros r Hr Hr'. specialize (Hcd r Hr Hr'). unfold dir_at. rewrite Hlk.
    case_decide; [by simpl; f_equal|]. by apply Hcol.
  - intros c Hc Hc'. specialize (Hrd c Hc Hc'). unfold dir_at. rewrite Hlk.
    case_decide; [by simpl; f_equal|]. by apply Hrow.
  - intros r c Hr Hc Hrc. specialize (Hid r c Hr Hc Hrc).
    case_decide as Heq; [done|]. destruct Hid as (Hold & N1 & N2 & N3).
    destruct (Hint r c Hr Hc Hold) as (cu & cl & cg & d & ? & ? & ? & ? & ?).
    exists cu, cl, cg, d.
    rewrite !Hlk, !decide_False by tauto. done.
Qed.

Lemma grid_inv_new :
  grid_inv' (λ _, False) (λ _, False) (λ _ _, False)
            (replicate (rows + 1) (replicate (cols + 1) Trace_new)).
Proof.
  split_and!; [apply dims_new| |done..].
  unfold dir_at. by rewrite lookup2_new by lia.
Qed.

Lemma init_column_post g trace :
  grid_inv' (λ _, False) (λ _, False) (λ _ _, False) trace →
  post (λ st, grid_inv' (λ _, True) (λ _, False) (λ _ _, False) st.2)
       (missing_pair weight results str)
       (for_each (init_column skew) (g, trace) (seq 1 rows)).
Proof.
  intros Hinv.
  eapply post_mono;
    [| |apply (post_for_each
                 (λ i st, grid_inv' (λ r, r < 1 + i)%nat (λ _, False)
                                    (λ _ _, False) st.2)
                 (missing_pair weight results str))].
  - intros st H. eapply grid_inv_weaken; [exact H|..]; try done.
    intros r Hr _. rewrite length_seq. lia.
  - done.
  - eapply grid_inv_weaken; [exact Hinv|..]; try done. intros; simpl; lia.
  - intros i r [g' trace'] [-> Hi]%lookup_seq HP. simpl in HP.
    unfold init_column.
    destruct (cell_set_spec rows cols trace' (1 + i) 0 (Trace.mk g' g' g' up))
      as (trace'' & -> & Hd & Hlk); [apply HP|lia..|].
    simpl. eapply grid_inv_write; [exact HP|done|exact Hlk|lia|..].
    + intros r Hr Hlt. case_decide; [done|lia].
    + intros c Hc [].
    + intros r c _ _ [].
Qed.

Lemma init_row_post g trace :
  grid_inv' (λ _, True) (λ _, False) (λ _ _, False) trace →
  post (λ st, grid_inv' (λ _, True) (λ _, True) (λ _ _, False) st.2)
       (missing_pair weight results str)
       (for_each (init_row skew) (g, trace) (seq 1 cols)).
Proof.
  intros Hinv.
  eapply post_mono;
    [| |apply (post_for_each
                 (λ i st, grid_inv' (λ _, True) (λ c, c < 1 + i)%nat
                                    (λ _ _, False) st.2)
                 (missing_pair weight results str))].
  - intros st H. eapply grid_inv_weaken; [exact H|..]; try done.
    intros c Hc _. rewrite length_seq. lia.
  - done.
  - eapply grid_inv_weaken; [exact Hinv|..]; try done. intros; simpl; lia.
  - intros i c [g' trace'] [-> Hi]%lookup_seq HP. simpl in HP.
    unfold init_row.
    destruct (cell_set_spec rows cols trace' 0 (1 + i) (Trace.mk g' g' g' left))
      as (trace'' & -> & Hd & Hlk); [apply HP|lia..|].
    simpl. eapply grid_inv_write; [exact HP|done|exact Hlk|lia|..].
    + intros r Hr _. case_decide; [lia|done].
    + intros c Hc Hlt. case_decide; [done|lia].
    + intros r c _ _ [].
Qed.

(** Filling cell [(r, c)] when the cells before it in row-major order are
    filled. *)
Lemma fill_cell_post (id id' : nat → nat → Prop) trace r c :
  (1 ≤ r ≤ rows)%nat → (1 ≤ c ≤ cols)%nat →
  grid_inv' (λ _, True) (λ _, True) id trace →
  (∀ r' c', (1 ≤ r' ≤ rows)%nat → (1 ≤ c' ≤ cols)%nat → id' r' c' →
            (r' = r ∧ c' = c)
            ∨ (id r' c' ∧ ((r' - 1)%nat ≠ r ∨ c' ≠ c)
               ∧ (r' ≠ r ∨ (c' - 1)%nat ≠ c)
               ∧ ((r' - 1)%nat ≠ r ∨ (c' - 1)%nat ≠ c))) →
  post (grid_inv' (λ _, True) (λ _, True) id')
       (missing_pair weight results str)
       (fill_cell weight gap skew results str r trace c).
Proof.
  intros Hr Hc Hinv Hid. pose proof Hinv as (Hd & _).
  destruct (lookup2_dims rows cols trace r c Hd) as [cell Hcell]; [lia..|].
  destruct (lookup2_dims rows cols trace (r - 1) c Hd) as [cu Hcu]; [lia..|].
  destruct (lookup2_dims rows cols trace r (c - 1) Hd) as [cl Hcl]; [lia..|].
  destruct (lookup2_dims rows cols trace (r - 1) (c - 1) Hd) as [cg Hcg];
    [lia..|].
  unfold fill_cell.
  rewrite (cell_at_Some _ _ _ _ Hcell). simpl.
  rewrite (cell_at_Some _ _ _ _ Hcu). simpl.
  rewrite (cell_at_Some _ _ _ _ Hcl). simpl.
  pose proof (diagonal_of_post r c Hr Hc) as Hdiag.
  destruct (diagonal_of weight results str r c) as [d| | |] eqn:Hd_eq;
    simpl in *; [|done..].
  rewrite (cell_at_Some _ _ _ _ Hcg). simpl.
  destruct (cell_set_spec rows cols trace r c (interior gap skew cu cl cg d))
    as (trace' & -> & Hd' & Hlk); [done|lia..|].
  simpl.
  assert (interior_ok weight gap skew results str trace' r c) as Hnew.
  { exists cu, cl, cg, d.
    split_and!; [rewrite Hlk, decide_False by lia; done..|done|].
    by rewrite Hlk, decide_True. }
  eapply grid_inv_write; [exact Hinv|done|exact Hlk|lia|..].
  - intros r' Hr' _. case_decide; [lia|done].
  - intros c' Hc' _. case_decide; [lia|done].
  - intros r' c' Hr' Hc' Hrc. destruct (Hid r' c' Hr' Hc' Hrc) as [[-> ->]|Hold].
    + rewrite decide_True by done. by apply Hnew.
    + destruct Hold as (? & N1 & N2 & N3). case_decide as Heq; [|done].
      destruct Heq as [-> ->]. by apply Hnew.
Qed.

Lemma fill_row_post trace r :
  (1 ≤ r ≤ rows)%nat →
  grid_inv' (λ _, True) (λ _, True) (λ r' _, r' < r)%nat trace →
  post (grid_inv' (λ _, True) (λ _, True) (λ r' _, r' < S r)%nat)
       (missing_pair weight results str)
       (for_each (fill_cell weight gap skew results str r) trace (seq 1 cols)).
Proof.
  intros Hr Hinv.
  eapply post_mono;
    [| |apply (post_for_each
                 (λ i, grid_inv' (λ _, True) (λ _, True)
                         (λ r' c', r' < r ∨ (r' = r ∧ c' < 1 + i))%nat)
                 (missing_pair weight results str))].
  - intros trace' H. eapply grid_inv_weaken; [exact H|..]; try done.
    intros r' c' Hr' Hc' Hlt. rewrite length_seq. lia.
  - done.
  - eapply grid_inv_weaken; [exact Hinv|..]; try done. intros; simpl; lia.
  - intros i c trace' [-> Hi]%lookup_seq HP.
    eapply fill_cell_post; [done|lia|exact HP|].
    intros r' c' Hr' Hc' Hdone. destruct (decide (r' = r ∧ c' = (1 + i)%nat));
      [by left|right]. lia.
Qed.

Lemma fill_post trace :
  grid_inv' (λ _, True) (λ _, True) (λ _ _, False) trace →
  post (grid_ok weight gap skew results str rows cols)
       (missing_pair weight results str)
       (for_each (λ trace r,
                    for_each (fill_cell weight gap skew results str r)
                             trace (seq 1 cols))
                 trace (seq 1 rows)).
Proof.
  intros Hinv.
  eapply post_mono;
    [| |apply (post_for_each
                 (λ i, grid_inv' (λ _, True) (λ _, True)
                         (λ r' _, r' < 1 + i)%nat)
                 (missing_pair weight results str))].
  - intros trace' H. eapply grid_inv_weaken; [exact H|..]; try done.
    intros r' c' Hr' Hc' _. rewrite length_seq. lia.
  - done.
  - eapply grid_inv_weaken; [exact Hinv|..]; try done. intros; simpl; lia.
  - intros i r trace' [-> Hi]%lookup_seq HP.
    apply fill_row_post; [lia|done].
Qed.

(** "Build the matrix" ends with the matrix filled, or with the exception
    for a compared pair that the substitution matrix lacks. *)
Lemma build_trace_post :
  post (grid_ok weight gap skew results str rows cols)
       (missing_pair weight results str)
       (build_trace weight gap skew results str rows cols).
Proof.
  unfold build_trace. cbv zeta. apply post_bind.
  eapply post_mono; [| |apply init_column_post, grid_inv_new]; [|done].
  intros [g trace] Hinv. simpl in Hinv. apply post_bind.
  eapply post_mono; [| |apply init_row_post, Hinv]; [|done].
  intros [g' trace'] Hinv'. simpl in Hinv'. by apply fill_post.
Qed.

(** In a filled matrix every compared pair has a score. *)
Lemma grid_ok_keys trace x y :
  grid_ok weight gap skew results str rows cols trace →
  compared results str x y → is_Some (weight !! key_of x y).
Proof.
  intros (_ & _ & _ & _ & Hint) (Hgap & (row & Hrow & Hx) & Hy).
  apply list_elem_of_lookup_1 in Hrow as [k Hrow], Hx as [j Hx], Hy as [j' Hy].
  assert (j < rows)%nat as Hj.
  { unfold rectangular in Hrect. rewrite Forall_forall in Hrect.
    rewrite <-(Hrect row) by eauto using list_elem_of_lookup_2.
    eauto using lookup_lt_Some. }
  assert (j' < cols)%nat as Hj' by (rewrite <-Hcols; eauto using lookup_lt_Some).
  destruct (Hint (S j) (S j')) as (_ & _ & _ & d & _ & _ & _ & Hd & _);
    [lia..|done|].
  pose proof (post_Return _ _ _ _ Hd
                (diagonal_of_post (S j) (S j') ltac:(lia) ltac:(lia))) as Hpost.
  cbv beta in Hpost.
  replace (S j - 1)%nat with j in Hpost by lia.
  replace (S j' - 1)%nat with j' in Hpost by lia.
  by apply (Hpost k row x y).
Qed.
End Build.

(** ** "Trace-back" *)

Section Push.
Context (results : list u32string) (rows : nat).
Hypothesis Hrect : rectangular results rows.

Lemma snoc_column_snoc nr1 acc res1 row j :
  length nr1 = length res1 →
  snoc_column (nr1 ++ [acc]) (res1 ++ [row]) j
  = snoc_column nr1 res1 j ++ [acc ++ [row !!! j]].
Proof. intros Hlen. unfold snoc_column. by rewrite zip_with_app. Qed.

(** The loop over [k] that appends column [r - 1] of the alignment. *)
Lemma push_column_spec (r : Z) (new_results : list u32string) :
  1 ≤ r ≤ Z.of_nat rows → length new_results = length results →
  push_column results r new_results
  = Return (snoc_column new_results results (Z.to_nat (r - 1))).
Proof.
  intros Hr Hlen. apply post_eq. unfold push_column.
  eapply post_mono;
    [| |apply (post_for_each
                 (λ i s, s = snoc_column (take i new_results) (take i results)
                                         (Z.to_nat (r - 1))
                             ++ drop i new_results)
                 (λ _, False))].
  - intros s ->. rewrite length_seq, !take_ge, drop_ge by lia.
    by rewrite app_nil_r.
  - done.
  - done.
  - intros i k s [-> Hi]%lookup_seq ->. simpl.
    destruct (lookup_lt_is_Some_2 results i Hi) as [row Hrow].
    destruct (lookup_lt_is_Some_2 new_results i) as [acc Hacc]; [lia|].
    assert (length row = rows) as Hrowlen.
    { unfold rectangular in Hrect. rewrite Forall_forall in Hrect.
      eauto using list_elem_of_lookup_2. }
    destruct (lookup_lt_is_Some_2 row (Z.to_nat (r - 1))) as [ch Hch]; [lia|].
    assert (length (snoc_column (take i new_results) (take i results)
                                (Z.to_nat (r - 1))) = i) as Hdone.
    { unfold snoc_column. rewrite length_zip_with, !length_take. lia. }
    rewrite (at_Some _ _ _ Hrow). simpl.
    rewrite (at_long_Some row (r - 1) ch ltac:(lia) Hch). simpl.
    rewrite (at_Some _ i acc).
    2:{ rewrite lookup_app_r, Hdone, Nat.sub_diag, lookup_drop by lia.
        by rewrite Nat.add_0_r. }
    simpl. f_equal.
    rewrite (take_S_r _ _ _ Hacc), (take_S_r _ _ _ Hrow).
    rewrite snoc_column_snoc by (rewrite !length_take; lia).
    rewrite (list_lookup_total_correct _ _ _ Hch).
    rewrite (drop_S _ _ _ Hacc).
    rewrite insert_app_r_alt by lia. rewrite Hdone, Nat.sub_diag. simpl.
    by rewrite <-app_assoc.
Qed.

(** The loop over [k] that appends a gap marker to every new row. *)
Lemma push_gaps_spec (new_results : list u32string) :
  length new_results = length results →
  push_gaps results new_results = Return (snoc_gaps new_results).
Proof.
  intros Hlen. apply post_eq. unfold push_gaps.
  eapply post_mono;
    [| |apply (post_for_each
                 (λ i s, s = snoc_gaps (take i new_results)
                             ++ drop i new_results)
                 (λ _, False))].
  - intros s ->. rewrite length_seq, take_ge, drop_ge by lia.
    by rewrite app_nil_r.
  - done.
  - done.
  - intros i k s [-> Hi]%lookup_seq ->. simpl.
    destruct (lookup_lt_is_Some_2 new_results i) as [acc Hacc]; [lia|].
    assert (length (snoc_gaps (take i new_results)) = i) as Hdone.
    { unfold snoc_gaps. rewrite length_fmap, length_take. lia. }
    rewrite (at_Some _ i acc).
    2:{ rewrite lookup_app_r, Hdone, Nat.sub_diag, lookup_drop by lia.
        by rewrite Nat.add_0_r. }
    simpl. f_equal.
    rewrite (take_S_r _ _ _ Hacc). unfold snoc_gaps. rewrite fmap_app. simpl.
    rewrite (drop_S _ _ _ Hacc).
    rewrite insert_app_r_alt by (rewrite length_fmap, length_take; lia).
    rewrite length_fmap, length_take.
    replace (i - i `min` length new_results)%nat with 0%nat by lia. simpl.
    by rewrite <-app_assoc.
Qed.
End Push.

Section Degap.
Implicit Types (s : u32string) (ch : char32_t).

Lemma degap_cons ch s :
  degap (ch :: s) = if decide (ch ≠ gap_char) then ch :: degap s else degap s.
Proof. unfold degap. by rewrite filter_cons. Qed.

Lemma degap_gap s : degap (gap_char :: s) = degap s.
Proof. rewrite degap_cons. by rewrite decide_False by naive_solver. Qed.

Lemma degap_gap_free s : gap_free s → degap s = s.
Proof.
  unfold gap_free. induction s as [|ch s IH]; intros Hs; [done|].
  rewrite degap_cons. rewrite not_elem_of_cons in Hs. destruct Hs as [? ?].
  rewrite decide_True by done. by rewrite IH.
Qed.

Lemma elem_of_degap ch s : ch ∈ degap s ↔ ch ≠ gap_char ∧ ch ∈ s.
Proof. unfold degap. by rewrite list_elem_of_filter. Qed.

(** Passing one more character, on the new side and on the old side. *)
Lemma degap_step acc s (j : nat) ch :
  s !! j = Some ch →
  degap (reverse acc) = degap (drop (S j) s) →
  degap (reverse (acc ++ [ch])) = degap (drop j s).
Proof.
  intros Hch Hacc. rewrite reverse_snoc, (drop_S _ _ _ Hch), !degap_cons.
  by rewrite Hacc.
Qed.

Lemma degap_step_gap acc s :
  degap (reverse (acc ++ [gap_char])) = degap (reverse acc).
Proof. by rewrite reverse_snoc, degap_gap. Qed.
End Degap.

Section Columns.
Implicit Types (rows : list u32string).

(** Every row gets one more character: the columns so far stay filled,
    and the new one is filled when one of the characters is not a gap. *)
Lemma columns_filled_extend rows rows' (width : nat) :
  rectangular rows width →
  Forall2 (λ a a', ∃ x, a' = a ++ [x]) rows rows' →
  columns_filled rows width →
  (∃ k a x, rows !! k = Some a ∧ rows' !! k = Some (a ++ [x]) ∧ x ≠ gap_char) →
  columns_filled rows' (S width).
Proof.
  intros Hrect Hext Hold (k0 & a0 & x0 & Ha0 & Ha0' & Hx0) j Hj.
  unfold rectangular in Hrect. rewrite Forall_forall in Hrect.
  destruct (decide (j = width)) as [->|Hne].
  - exists k0, (a0 ++ [x0]), x0. split_and!; [done| |done].
    rewrite lookup_app_r by (rewrite (Hrect a0); eauto using list_elem_of_lookup_2).
    rewrite (Hrect a0) by eauto using list_elem_of_lookup_2.
    by rewrite Nat.sub_diag.
  - destruct (Hold j) as (k & a & ch & Ha & Hch & Hgap); [lia|].
    destruct (Forall2_lookup_l _ _ _ _ _ Hext Ha) as (a' & Ha' & x & ->).
    exists k, (a ++ [x]), ch. split_and!; [done| |done].
    by apply lookup_app_l_Some.
Qed.

Lemma rectangular_lookup rows width k row :
  rectangular rows width → rows !! k = Some row → length row = width.
Proof.
  unfold rectangular. rewrite Forall_forall.
  eauto using list_elem_of_lookup_2.
Qed.

(** Reversing every row mirrors the columns. *)
Lemma columns_filled_reverse rows width :
  rectangular rows width →
  columns_filled rows width → columns_filled (reverse <$> rows) width.
Proof.
  intros Hrect Hfilled j Hj.
  destruct (Hfilled (width - S j)%nat) as (k & row & ch & Hrow & Hch & Hgap);
    [lia|].
  pose proof (rectangular_lookup _ _ _ _ Hrect Hrow) as Hlen.
  exists k, (reverse row), ch. split_and!; [|..|done].
  - by rewrite list_lookup_fmap, Hrow.
  - rewrite reverse_lookup by lia. by rewrite Hlen.
Qed.
End Columns.

Section Walk.
Context (weight : gmap u32string float) (gap skew : float).
Context (results : list u32string) (str : u32string) (rows cols : nat).
Context (trace : TraceMatrix).
Hypothesis Hrect : rectangular results rows.
Hypothesis Hcols : length str = cols.
Hypothesis Hgrid : grid_ok weight gap skew results str rows cols trace.

Abbreviation walk_inv' := (walk_inv results str rows cols).

Lemma interior_dir cu cl cg d : Trace.dir (interior gap skew cu cl cg d) ≠ none.
Proof. unfold interior. simpl. repeat case_match; done. Qed.

(** The direction of a cell tells where the cell is: [none] only at the
    origin, [diag] only inside, [up] only below row 0, [left] only right of
    column 0. *)
Lemma grid_dir (r c : nat) :
  (r ≤ rows)%nat → (c ≤ cols)%nat →
  ∃ cell, lookup2 trace r c = Some cell ∧
    match Trace.dir cell with
    | none => r = 0%nat ∧ c = 0%nat
    | diag => (1 ≤ r)%nat ∧ (1 ≤ c)%nat
    | up => (1 ≤ r)%nat
    | left => (1 ≤ c)%nat
    end.
Proof.
  intros Hr Hc. destruct Hgrid as (Hd & H00 & Hcol & Hrow & Hint).
  destruct (decide (r = 0%nat)) as [->|Hr0];
    destruct (decide (c = 0%nat)) as [->|Hc0].
  - apply fmap_Some in H00 as (cell & Hcell & Hdir).
    exists cell. by rewrite <-Hdir.
  - pose proof (Hrow c ltac:(lia) I) as (cell & Hcell & Hdir)%fmap_Some.
    exists cell. rewrite <-Hdir. split; [done|lia].
  - pose proof (Hcol r ltac:(lia) I) as (cell & Hcell & Hdir)%fmap_Some.
    exists cell. rewrite <-Hdir. split; [done|lia].
  - destruct (Hint r c) as (cu & cl & cg & d & _ & _ & _ & _ & Hcell);
      [lia..|done|].
    eexists. split; [exact Hcell|].
    pose proof (interior_dir cu cl cg d).
    destruct (Trace.dir _); [done|lia..].
Qed.

Lemma rows_step_column (new_results : list u32string) (len j : nat) :
  (j < rows)%nat →
  Forall2 (λ acc row, length acc = len
                      ∧ degap (reverse acc) = degap (drop (S j) row))
          new_results results →
  Forall2 (λ acc row, length acc = S len
                      ∧ degap (reverse acc) = degap (drop j row))
          (snoc_column new_results results j) results
  ∧ Forall2 (λ a a', ∃ x, a' = a ++ [x])
            new_results (snoc_column new_results results j).
Proof.
  intros Hj Hrows. pose proof (Forall2_length _ _ _ Hrows) as Hlen.
  unfold snoc_column. split.
  - apply Forall2_same_length_lookup_2.
    { rewrite length_zip_with. lia. }
    intros i acc' row (acc & row' & -> & Hacc & Hrow')%lookup_zip_with_Some Hrow.
    assert (row' = row) as -> by congruence.
    destruct (Forall2_lookup_lr _ _ _ _ _ _ Hrows Hacc Hrow) as [Hl Hd].
    destruct (lookup_lt_is_Some_2 row j) as [ch Hch].
    { rewrite (rectangular_lookup _ _ _ _ Hrect Hrow). lia. }
    rewrite (list_lookup_total_correct _ _ _ Hch).
    split; [rewrite length_app; simpl; lia|]. by apply degap_step.
  - apply Forall2_same_length_lookup_2.
    { rewrite length_zip_with. lia. }
    intros i acc acc' Hacc (acc0 & row & -> & Hacc0 & Hrow)%lookup_zip_with_Some.
    assert (acc0 = acc) as -> by congruence. eauto.
Qed.

Lemma rows_step_gaps (new_results : list u32string) (len j : nat) :
  Forall2 (λ acc row, length acc = len
                      ∧ degap (reverse acc) = degap (drop j row))
          new_results results →
  Forall2 (λ acc row, length acc = S len
                      ∧ degap (reverse acc) = degap (drop j row))
          (snoc_gaps new_results) results
  ∧ Forall2 (λ a a', ∃ x, a' = a ++ [x]) new_results (snoc_gaps new_results).
Proof.
  intros Hrows. unfold snoc_gaps. split.
  - apply Forall2_fmap_l. eapply Forall2_impl; [exact Hrows|].
    intros acc row [Hl Hd]. simpl.
    split; [rewrite length_app; simpl; lia|]. by rewrite degap_step_gap.
  - apply Forall2_fmap_r, Forall_Forall2_diag, Forall_forall.
    intros acc _. simpl. eauto.
Qed.

Lemma walk_rows_rectangular (new_results : list u32string) (len j : nat) :
  Forall2 (λ acc row, length acc = len
                      ∧ degap (reverse acc) = degap (drop j row))
          new_results results →
  rectangular new_results len.
Proof.
  intros Hrows. unfold rectangular. apply Forall_forall.
  intros acc [i Hacc]%list_elem_of_lookup_1.
  destruct (Forall2_lookup_l _ _ _ _ _ Hrows Hacc) as (row & _ & Hl & _).
  done.
Qed.

(** One step of the walk, from what it appends: [x] to the new string, a
    character to every new row. *)
Lemma walk_inv_step r c nr ns r' c' nr' x :
  walk_inv' (Walk r c nr ns) →
  0 ≤ r' ≤ r → 0 ≤ c' ≤ c → r' + c' + 1 ≤ r + c →
  Forall2 (λ acc row, length acc = S (length ns)
                      ∧ degap (reverse acc) = degap (drop (Z.to_nat r') row))
          nr' results →
  Forall2 (λ a a', ∃ y, a' = a ++ [y]) nr nr' →
  degap (reverse (ns ++ [x])) = degap (drop (Z.to_nat c') str) →
  (columns_filled results rows → gap_free str →
   x ≠ gap_char
   ∨ ∃ k acc y, nr !! k = Some acc ∧ nr' !! k = Some (acc ++ [y])
                ∧ y ≠ gap_char) →
  walk_inv' (Walk r' c' nr' (ns ++ [x])).
Proof.
  intros (Hr & Hc & Hlen & Hrows & Hstr & Hfill) Hr' Hc' Hdec Hrows' Hext
    Hstr' Hnew.
  simpl in *. unfold walk_inv. simpl.
  assert (length (ns ++ [x]) = S (length ns)) as Hlen'
    by (rewrite length_app; simpl; lia).
  rewrite Hlen'. split_and!; [lia..|done|done|].
  intros Hf Hg. eapply (columns_filled_extend (nr ++ [ns])).
  - apply Forall_app. split; [|by repeat constructor].
    eapply walk_rows_rectangular, Hrows.
  - apply Forall2_app; [done|]. repeat constructor. eauto.
  - by apply Hfill.
  - destruct (Hnew Hf Hg) as [Hx|(k & acc & y & Hacc & Hacc' & Hy)].
    + exists (length nr), ns, x. split_and!; [|..|done].
      * by rewrite lookup_app_r, Nat.sub_diag by lia.
      * rewrite (Forall2_length _ _ _ Hext).
        by rewrite lookup_app_r, Nat.sub_diag by lia.
    + exists k, acc, y. split_and!; [|..|done]; by apply lookup_app_l_Some.
Qed.

(** The new character of a filled column of the alignment. *)
Lemma column_witness nr (j : nat) :
  length nr = length results → (j < rows)%nat →
  columns_filled results rows →
  ∃ k acc y, nr !! k = Some acc
             ∧ snoc_column nr results j !! k = Some (acc ++ [y])
             ∧ y ≠ gap_char.
Proof.
  intros Hlen Hj Hf. destruct (Hf j Hj) as (k & row & ch & Hrow & Hch & Hgap).
  destruct (lookup_lt_is_Some_2 nr k) as [acc Hacc].
  { rewrite Hlen. eauto using lookup_lt_Some. }
  exists k, acc, ch. split_and!; [done| |done].
  unfold snoc_column. rewrite lookup_zip_with, Hacc, Hrow. simpl.
  by rewrite (list_lookup_total_correct _ _ _ Hch).
Qed.

Lemma walk_diag r c nr ns :
  walk_inv' (Walk r c nr ns) → 1 ≤ r → 1 ≤ c →
  ∃ ch, str !! Z.to_nat (c - 1) = Some ch
        ∧ walk_inv' (Walk (r - 1) (c - 1)
                          (snoc_column nr results (Z.to_nat (r - 1)))
                          (ns ++ [ch])).
Proof.
  intros Hinv Hr1 Hc1. pose proof Hinv as (Hr & Hc & Hlen & Hrows & Hstr & _).
  simpl in *.
  destruct (lookup_lt_is_Some_2 str (Z.to_nat (c - 1))) as [ch Hch]; [lia|].
  exists ch. split; [done|].
  destruct (rows_step_column nr (length ns) (Z.to_nat (r - 1)))
    as [Hrows' Hext]; [lia| |].
  { by replace (S (Z.to_nat (r - 1))) with (Z.to_nat r) by lia. }
  eapply walk_inv_step; [exact Hinv|lia..|done|done| |].
  - apply degap_step; [done|].
    by replace (S (Z.to_nat (c - 1))) with (Z.to_nat c) by lia.
  - intros Hf _. right.
    apply column_witness; [by eapply Forall2_length|lia|done].
Qed.

Lemma walk_up r c nr ns :
  walk_inv' (Walk r c nr ns) → 1 ≤ r →
  walk_inv' (Walk (r - 1) c (snoc_column nr results (Z.to_nat (r - 1)))
                  (ns ++ [gap_char])).
Proof.
  intros Hinv Hr1. pose proof Hinv as (Hr & Hc & Hlen & Hrows & Hstr & _).
  simpl in *.
  destruct (rows_step_column nr (length ns) (Z.to_nat (r - 1)))
    as [Hrows' Hext]; [lia| |].
  { by replace (S (Z.to_nat (r - 1))) with (Z.to_nat r) by lia. }
  eapply walk_inv_step; [exact Hinv|lia..|done|done| |].
  - by rewrite degap_step_gap.
  - intros Hf _. right.
    apply column_witness; [by eapply Forall2_length|lia|done].
Qed.

Lemma walk_left r c nr ns :
  walk_inv' (Walk r c nr ns) → 1 ≤ c →
  ∃ ch, str !! Z.to_nat (c - 1) = Some ch
        ∧ walk_inv' (Walk r (c - 1) (snoc_gaps nr) (ns ++ [ch])).
Proof.
  intros Hinv Hc1. pose proof Hinv as (Hr & Hc & Hlen & Hrows & Hstr & _).
  simpl in *.
  destruct (lookup_lt_is_Some_2 str (Z.to_nat (c - 1))) as [ch Hch]; [lia|].
  exists ch. split; [done|].
  destruct (rows_step_gaps nr (length ns) (Z.to_nat r) Hrows)
    as [Hrows' Hext].
  eapply walk_inv_step; [exact Hinv|lia..|done|done| |].
  - apply degap_step; [done|].
    by replace (S (Z.to_nat (c - 1))) with (Z.to_nat c) by lia.
  - intros _ Hg. left. intros ->. apply Hg. eauto using list_elem_of_lookup_2.
Qed.

(** The walk reaches the origin: from any state that satisfies the
    invariant, [r + c + 1] iterations are enough, and the loop leaves at
    cell [(0, 0)] with the invariant still true. *)
Lemma traceback_post (fuel : nat) (w : walk) :
  walk_inv' w →
  (Z.to_nat (walk_r w) + Z.to_nat (walk_c w) < fuel)%nat →
  ∃ w', traceback fuel trace results str w = Return w'
        ∧ walk_r w' = 0 ∧ walk_c w' = 0 ∧ walk_inv' w'.
Proof.
  revert w. induction fuel as [|fuel IH]; intros [r c nr ns] Hinv Hfuel;
    [lia|].
  pose proof Hinv as (Hr & Hc & Hlen & Hrows & _). simpl in *.
  destruct (grid_dir (Z.to_nat r) (Z.to_nat c)) as (cell & Hcell & Hdir);
    [lia..|].
  unfold lookup2 in Hcell. apply bind_Some in Hcell as (row & Hrow & Hcell).
  rewrite (at_long_Some trace r row) by (done || lia). simpl.
  rewrite (at_long_Some row c cell) by (done || lia). simpl.
  pose proof (Forall2_length _ _ _ Hrows) as Hnr.
  destruct (Trace.dir cell).
  - exists (Walk r c nr ns). simpl. split_and!; [done|lia..|done].
  - destruct Hdir as [Hr1 Hc1].
    rewrite (push_column_spec results rows Hrect) by (done || lia). simpl.
    destruct (walk_diag r c nr ns Hinv) as (ch & Hch & Hinv'); [lia..|].
    rewrite (at_long_Some str (c - 1) ch) by (done || lia). simpl.
    apply IH; [done|simpl; lia].
  - rewrite (push_column_spec results rows Hrect) by (done || lia). simpl.
    apply IH; [apply walk_up; [done|lia]|simpl; lia].
  - rewrite (push_gaps_spec results) by done. simpl.
    destruct (walk_left r c nr ns Hinv) as (ch & Hch & Hinv'); [lia..|].
    rewrite (at_long_Some str (c - 1) ch) by (done || lia). simpl.
    apply IH; [done|simpl; lia].
Qed.

(** The variables of the walk as the loop finds them. *)
Lemma walk_inv_start :
  walk_inv' (Walk (Z.of_nat rows) (Z.of_nat cols)
                  (replicate (length results) []) []).
Proof.
  unfold walk_inv. simpl. split_and!; [lia..| | |].
  - apply Forall2_same_length_lookup_2; [by rewrite length_replicate|].
    intros i acc row [-> _]%lookup_replicate Hrow. split; [done|].
    rewrite Nat2Z.id, drop_ge; [done|].
    by rewrite (rectangular_lookup _ _ _ _ Hrect Hrow).
  - by rewrite Nat2Z.id, drop_ge by lia.
  - intros _ _ j Hj. lia.
Qed.
End Walk.

(** A larger budget of iterations does not change how the walk ends. *)
Lemma traceback_settles trace results str (fuel fuel' : nat) (w : walk) :
  (fuel ≤ fuel')%nat →
  settles (traceback fuel trace results str w)
          (traceback fuel' trace results str w).
Proof.
  revert fuel' w. induction fuel as [|fuel IH]; intros fuel' w Hle.
  - by intros [].
  - destruct fuel' as [|fuel']; [lia|]. destruct w as [r c nr ns]. simpl.
    apply settles_bind; [apply settles_refl|]. intros row.
    apply settles_bind; [apply settles_refl|]. intros cell.
    destruct (Trace.dir cell); [apply settles_refl|..];
      repeat (apply settles_bind; [apply settles_refl|intros ?]);
      apply IH; lia.
Qed.

(** ** One round, and all rounds *)

Section Rounds.
Context (weight : gmap u32string float) (gap skew : float).

(** What folding [str] into a rectangular, non-empty alignment gives. *)
Lemma fold_in_post (fuel : nat) (results : list u32string) (str : u32string)
    (rows : nat) :
  results ≠ [] → rectangular results rows →
  (rows + length str < fuel)%nat →
  post (λ results',
          Forall2 (λ row' row, degap row' = degap row)
                  results' (results ++ [str])
          ∧ (∃ width, rectangular results' width
                      ∧ (width ≤ rows + length str)%nat
                      ∧ (columns_filled results rows → gap_free str →
                         columns_filled results' width))
          ∧ (∀ x y, compared results str x y →
                    is_Some (weight !! key_of x y)))
       (missing_pair weight results str)
       (fold_in weight gap skew fuel results str).
Proof.
  intros Hne Hrect Hfuel. destruct results as [|row0 rest] eqn:Hres; [done|].
  rewrite <-Hres in *. unfold fold_in.
  assert (results !! 0%nat = Some row0) as Hrow0 by by rewrite Hres.
  rewrite (at_Some _ _ _ Hrow0). simpl.
  rewrite (rectangular_lookup _ _ _ _ Hrect Hrow0).
  apply post_bind.
  eapply post_mono;
    [| |apply (build_trace_post weight gap skew results str rows (length str))];
    [|done..].
  intros trace Hgrid.
  destruct (traceback_post weight gap skew results str rows (length str) trace
              Hrect eq_refl Hgrid fuel
              (Walk (Z.of_nat rows) (Z.of_nat (length str))
                    (replicate (length results) []) []))
    as ([r c nr ns] & -> & Hr0 & Hc0 & Hinv).
  { by apply walk_inv_start. }
  { simpl. lia. }
  simpl in *. subst r c.
  destruct Hinv as (_ & _ & Hlen & Hrows & Hstr & Hfill). simpl in *.
  rewrite drop_0 in Hstr.
  assert (rectangular (nr ++ [ns]) (length ns)) as Hrect'.
  { apply Forall_app. split; [|by repeat constructor].
    eapply walk_rows_rectangular, Hrows. }
  split_and!.
  - rewrite fmap_app. apply Forall2_app.
    + apply Forall2_fmap_l. eapply Forall2_impl; [exact Hrows|].
      intros acc row [_ H]. simpl. by rewrite H, drop_0.
    + by repeat constructor.
  - exists (length ns). split_and!.
    + unfold rectangular in *. apply Forall_fmap.
      eapply Forall_impl; [exact Hrect'|].
      intros row H. simpl. by rewrite length_reverse.
    + lia.
    + intros Hf Hg. apply columns_filled_reverse; [done|]. by apply Hfill.
  - intros x y. by eapply grid_ok_keys.
Qed.

Lemma fold_in_settles (fuel fuel' : nat) results str :
  (fuel ≤ fuel')%nat →
  settles (fold_in weight gap skew fuel results str)
          (fold_in weight gap skew fuel' results str).
Proof.
  intros Hle. unfold fold_in.
  apply settles_bind; [apply settles_refl|]. intros row0.
  apply settles_bind; [apply settles_refl|]. intros trace.
  apply settles_bind; [by apply traceback_settles|]. intros w.
  apply settles_refl.
Qed.

(** A larger budget of iterations does not change how [align_all] ends. *)
Lemma align_all_settles (fuel fuel' : nat) (strings : list u32string) :
  (fuel ≤ fuel')%nat →
  settles (align_all weight gap skew fuel strings)
          (align_all weight gap skew fuel' strings).
Proof.
  intros Hle. unfold align_all. case_decide; [apply settles_refl|].
  apply settles_bind; [apply settles_refl|]. intros first.
  apply settles_for_each. intros results s.
  apply settles_bind; [apply settles_refl|]. intros str.
  by apply fold_in_settles.
Qed.

Lemma aligned_first (first : u32string) : aligned weight [first] [first].
Proof.
  split_and!.
  - by repeat constructor.
  - exists (length first). split_and!.
    + by repeat constructor.
    + unfold total_length. simpl. lia.
    + intros [Hg _]%Forall_cons j Hj.
      destruct (lookup_lt_is_Some_2 first j Hj) as [ch Hch].
      exists 0%nat, first, ch. split_and!; [done..|].
      intros ->. apply Hg. eauto using list_elem_of_lookup_2.
  - intros k s strk strs x y Hks Hk Hs. apply lookup_lt_Some in Hs.
    simpl in Hs. lia.
Qed.

Lemma total_length_snoc (strings : list u32string) (str : u32string) :
  total_length (strings ++ [str]) = (total_length strings + length str)%nat.
Proof. unfold total_length. rewrite sum_list_with_app. simpl. lia. Qed.

Lemma total_length_take (strings : list u32string) (n : nat) str :
  strings !! n = Some str →
  (total_length (take n strings) + length str ≤ total_length strings)%nat.
Proof.
  intros Hstr. rewrite <-(take_drop_middle _ _ _ Hstr) at 2.
  unfold total_length. rewrite sum_list_with_app. simpl. lia.
Qed.

(** A character of a string that is no gap marker is in its row. *)
Lemma aligned_row_char (strings results : list u32string) k strk x :
  Forall2 (λ row str, degap row = degap str) results strings →
  strings !! k = Some strk → x ∈ strk → x ≠ gap_char →
  ∃ row, results !! k = Some row ∧ x ∈ row.
Proof.
  intros HF2 Hk Hx Hgap.
  destruct (Forall2_lookup_r _ _ _ _ _ HF2 Hk) as (row & Hrow & Hd).
  exists row. split; [done|].
  assert (x ∈ degap row) as Hin by (rewrite Hd; by apply elem_of_degap).
  by apply elem_of_degap in Hin as [_ ?].
Qed.

Lemma aligned_snoc (strings results : list u32string) (str : u32string)
    (results' : list u32string) (rows : nat) :
  Forall2 (λ row str, degap row = degap str) results strings →
  rectangular results rows → (rows ≤ total_length strings)%nat →
  (Forall gap_free strings → columns_filled results rows) →
  (∀ k s strk strs x y,
     (k < s)%nat → strings !! k = Some strk → strings !! s = Some strs →
     x ∈ strk → x ≠ gap_char → y ∈ strs → is_Some (weight !! key_of x y)) →
  Forall2 (λ row' row, degap row' = degap row) results' (results ++ [str]) →
  (∃ width, rectangular results' width
            ∧ (width ≤ rows + length str)%nat
            ∧ (columns_filled results rows → gap_free str →
               columns_filled results' width)) →
  (∀ x y, compared results str x y → is_Some (weight !! key_of x y)) →
  aligned weight (strings ++ [str]) results'.
Proof.
  intros HF2 Hrect Hrows Hcols Hkeys HF2' (width & Hrect' & Hwidth & Hcols')
    Hkeys'.
  split_and!.
  - eapply (Forall2_trans _ (λ row str, degap row = degap str));
      [|exact HF2'|].
    + intros x y z H1 H2. simpl in *. congruence.
    + apply Forall2_app; [exact HF2|]. by repeat constructor.
  - exists width. split_and!; [done|rewrite total_length_snoc; lia|].
    intros [Hg Hgs]%Forall_app. apply Hcols'; [by apply Hcols|].
    by inv Hgs.
  - intros k s strk strs x y Hks Hk Hs Hx Hgap Hy.
    pose proof (lookup_lt_Some _ _ _ Hs) as Hslen.
    rewrite length_app in Hslen. simpl in Hslen.
    destruct (decide (s = length strings)) as [->|Hne].
    + rewrite lookup_app_r, Nat.sub_diag in Hs by lia. simplify_eq/=.
      rewrite lookup_app_l in Hk by lia.
      destruct (aligned_row_char strings results k strk x) as (row & Hrow & Hin);
        [done..|].
      apply Hkeys'. split_and!; [done| |done].
      exists row. eauto using list_elem_of_lookup_2.
    + rewrite lookup_app_l in Hk, Hs by lia.
      by apply (Hkeys k s strk strs).
Qed.

(** The exception of a round names a pair of one earlier and the current
    string. *)
Lemma missing_pair_score (strings results : list u32string) (s : nat) str e :
  Forall2 (λ row str, degap row = degap str) results (take s strings) →
  strings !! s = Some str →
  missing_pair weight results str e → missing_score weight strings e.
Proof.
  intros HF2 Hstr (x & y & (Hgap & (row & Hrow & Hx) & Hy) & Hkey & ->).
  apply list_elem_of_lookup_1 in Hrow as [k Hrow].
  destruct (Forall2_lookup_l _ _ _ _ _ HF2 Hrow) as (strk & Hstrk & Hd).
  apply lookup_take_Some in Hstrk as [Hstrk Hk].
  exists k, s, strk, str, x, y. split_and!; try done.
  assert (x ∈ degap strk) as Hin by (rewrite <-Hd; by apply elem_of_degap).
  by apply elem_of_degap in Hin as [_ ?].
Qed.

(** [align_all] on a non-empty list, with a budget of iterations above the
    sum of the lengths: it returns an alignment of the strings, or it throws
    for a pair of characters that the matrix lacks. *)
Lemma align_all_post (fuel : nat) (strings : list u32string) :
  strings ≠ [] → (total_length strings < fuel)%nat →
  post (aligned weight strings) (missing_score weight strings)
       (align_all weight gap skew fuel strings).
Proof.
  intros Hne Hfuel. unfold align_all.
  destruct strings as [|first rest] eqn:Hs; [done|]. rewrite <-Hs in *.
  assert (strings !! 0%nat = Some first) as Hfirst by by rewrite Hs.
  pose proof (lookup_lt_Some _ _ _ Hfirst) as Hlen.
  rewrite decide_False by lia. rewrite (at_Some _ _ _ Hfirst). simpl.
  eapply post_mono;
    [| |apply (post_for_each
                 (λ i results, aligned weight (take (S i) strings) results)
                 (missing_score weight strings))].
  - intros results H. rewrite length_seq, take_ge in H by lia. done.
  - done.
  - rewrite (take_S_r _ _ _ Hfirst). simpl. apply aligned_first.
  - intros i s results [-> Hi]%lookup_seq HP.
    destruct (lookup_lt_is_Some_2 strings (S i)) as [str Hstr]; [lia|].
    change (1 + i)%nat with (S i).
    rewrite (at_Some _ _ _ Hstr). simpl.
    destruct HP as (HF2 & (rows & Hrect & Hrows & Hcols) & Hkeys).
    pose proof (total_length_take _ _ _ Hstr).
    eapply post_mono; [| |apply (fold_in_post fuel results str rows)].
    + intros results' (HF2' & Hwidth & Hkeys').
      rewrite (take_S_r _ _ _ Hstr). by eapply aligned_snoc.
    + intros e He. by eapply missing_pair_score.
    + apply Forall2_length in HF2. rewrite length_take in HF2.
      assert (length results ≠ 0%nat) by lia. by destruct results.
    + done.
    + lia.
Qed.
End Rounds.

(** * Further lemmas on loops and rounds *)

Section Loop_laws.
Context {S I : Type}.
Implicit Types (body : S → I → outcome S) (l : list I) (s : S).

Lemma bind_Return_inv {A B} (m : outcome A) (f : A → outcome B) b :
  m ≫= f = Return b → ∃ a, m = Return a ∧ f a = Return b.
Proof. destruct m as [a|e| |]; [|done..]. intros H. by exists a. Qed.

Lemma bind_Return_r {A} (m : outcome A) : m ≫= Return = m.
Proof. by destruct m. Qed.

Lemma bind_assoc {A B C} (m : outcome A) (f : A → outcome B)
    (g : B → outcome C) :
  (m ≫= f) ≫= g = m ≫= (λ a, f a ≫= g).
Proof. by destruct m. Qed.

(** A loop over [l1 ++ l2] is the loop over [l1] followed by the loop over
    [l2]. *)
Lemma for_each_app body s l1 l2 :
  for_each body s (l1 ++ l2)
  = for_each body s l1 ≫= λ s', for_each body s' l2.
Proof.
  revert s. induction l1 as [|i l1 IH]; intros s; [done|].
  simpl. rewrite bind_assoc. destruct (body s i); [|done..]. apply IH.
Qed.

(** Two bodies that agree on the index values of the loop give the same
    loop. *)
Lemma for_each_ext body body' s l :
  (∀ s i, i ∈ l → body s i = body' s i) →
  for_each body s l = for_each body' s l.
Proof.
  revert s. induction l as [|i l IH]; intros s Hbody; [done|].
  simpl. rewrite Hbody by left. destruct (body' s i); [|done..].
  apply IH. intros s' j Hj. apply Hbody. by right.
Qed.

(** What a loop that returns has established. *)
Lemma for_each_Return (P : nat → S → Prop) body l s s' :
  for_each body s l = Return s' →
  P 0%nat s →
  (∀ i x s s', l !! i = Some x → body s x = Return s' → P i s →
               P (Datatypes.S i) s') →
  P (length l) s'.
Proof.
  revert P s. induction l as [|x l IH]; intros P s Hrun H0 Hstep.
  - simpl in Hrun. by simplify_eq.
  - simpl in Hrun. apply bind_Return_inv in Hrun as (s1 & Hx & Hrun).
    apply (IH (λ i, P (Datatypes.S i)) s1 Hrun).
    + by apply (Hstep 0%nat x s).
    + intros i y s2 s3 Hy. by apply (Hstep (Datatypes.S i)).
Qed.
End Loop_laws.

Section Last_string.
Context (weight : gmap u32string float) (gap skew : float).

(** The rounds for [strings ++ [str]] are the rounds for [strings] and one
    more, which folds [str] in. *)
Lemma align_all_snoc (fuel : nat) (strings : list u32string)
    (str : u32string) :
  strings ≠ [] →
  align_all weight gap skew fuel (strings ++ [str])
  = align_all weight gap skew fuel strings
      ≫= λ results, fold_in weight gap skew fuel results str.
Proof.
  intros Hne. destruct strings as [|first strings]; [done|].
  unfold align_all. rewrite length_app. simpl length.
  rewrite !decide_False by lia.
  replace (at_ ((first :: strings) ++ [str]) 0)
    with (@Return u32string first) by done.
  change (at_ (first :: strings) 0) with (@Return u32string first).
  cbn [mbind outcome_bind].
  replace (S (length strings) + 1 - 1)%nat with (length strings + 1)%nat
    by lia.
  replace (S (length strings) - 1)%nat with (length strings) by lia.
  rewrite seq_app, for_each_app. simpl seq.
  rewrite (for_each_ext _
             (λ results s, str0 ← at_ (first :: strings) s;
                           fold_in weight gap skew fuel results str0)).
  - destruct (for_each _ [first] (seq 1 (length strings))) as [results|e| |];
      [|done..].
    cbn [mbind outcome_bind for_each].
    replace (1 + length strings)%nat with (length (first :: strings)) by done.
    unfold at_ at 1. rewrite lookup_app_r by done.
    rewrite Nat.sub_diag. simpl. apply bind_Return_r.
  - intros results i Hi%elem_of_seq. unfold at_.
    rewrite lookup_app_l by (simpl; lia). done.
Qed.
End Last_string.

(** ** Walks along the boundary of the matrix *)

Lemma snoc_column_take (results : list u32string) (rows : nat)
    (nr : list u32string) (n : nat) :
  rectangular results rows → (n < rows)%nat →
  zip_with (λ acc row, acc ++ reverse (take n row))
           (snoc_column nr results n) results
  = zip_with (λ acc row, acc ++ reverse (take (S n) row)) nr results.
Proof.
  intros Hrect Hn. unfold snoc_column. revert nr.
  induction Hrect as [|row rest Hrow Hrest IH]; intros [|acc nr]; [done..|].
  simpl. f_equal; [|by apply IH].
  destruct (lookup_lt_is_Some_2 row n) as [x Hx]; [lia|].
  rewrite (take_S_r _ _ _ Hx), reverse_snoc.
  rewrite (list_lookup_total_correct _ _ _ Hx). by rewrite <-app_assoc.
Qed.

Section Boundary_walk.
Context (weight : gmap u32string float) (gap skew : float).
Context (results : list u32string) (str : u32string) (rows cols : nat).
Context (trace : TraceMatrix).
Hypothesis Hrect : rectangular results rows.
Hypothesis Hcols : length str = cols.
Hypothesis Hgrid : grid_ok weight gap skew results str rows cols trace.

Lemma grid_cell_dir (r c : nat) (d : TraceDir) :
  dir_at trace r c = Some d →
  ∃ row cell, trace !! r = Some row ∧ row !! c = Some cell
              ∧ Trace.dir cell = d.
Proof.
  unfold dir_at, lookup2. intros (cell & Hcell & Hd)%fmap_Some.
  apply bind_Some in Hcell as (row & Hrow & Hcell). by exists row, cell.
Qed.

(** From [(n, 0)] the walk goes up to [(0, 0)]: every new row receives the
    first [n] characters of its row, last first, and the new string [n] gap
    markers. *)
Lemma walk_column_0 (fuel n : nat) (nr : list u32string) (ns : u32string) :
  (n ≤ rows)%nat → length nr = length results →
  traceback (S n + fuel) trace results str (Walk (Z.of_nat n) 0 nr ns)
  = Return (Walk 0 0
                 (zip_with (λ acc row, acc ++ reverse (take n row)) nr results)
                 (ns ++ replicate n gap_char)).
Proof.
  destruct Hgrid as (_ & H00 & Hup & _).
  revert nr ns. induction n as [|n IH]; intros nr ns Hn Hlen.
  - apply grid_cell_dir in H00 as (row & cell & Hrow & Hcell & Hdir).
    change (traceback (1 + fuel)) with (traceback (S fuel)).
    cbn [traceback]. change (Z.of_nat 0) with 0.
    rewrite (at_long_Some trace 0 row) by done. cbn [mbind outcome_bind].
    rewrite (at_long_Some row 0 cell) by done. cbn [mbind outcome_bind]. rewrite Hdir.
    simpl replicate. rewrite app_nil_r. do 2 f_equal.
    clear -Hlen. revert nr Hlen.
    induction results as [|row rest IH]; intros [|acc nr] Hlen; try done.
    simpl in *. rewrite app_nil_r. f_equal. apply IH. lia.
  - destruct (grid_cell_dir (S n) 0 up) as (row & cell & Hrow & Hcell & Hdir).
    { apply Hup; [lia|done]. }
    change (traceback (S (S n) + fuel)) with (traceback (S (S n + fuel))).
    cbn [traceback].
    rewrite (at_long_Some trace (Z.of_nat (S n)) row)
      by (lia || by rewrite Nat2Z.id).
    cbn [mbind outcome_bind]. rewrite (at_long_Some row 0 cell) by done. cbn [mbind outcome_bind].
    rewrite Hdir.
    rewrite (push_column_spec results rows Hrect) by (done || lia).
    cbn [mbind outcome_bind].
    replace (Z.of_nat (S n) - 1) with (Z.of_nat n) by lia.
    rewrite Nat2Z.id, IH.
    + rewrite (snoc_column_take results rows) by (done || lia).
      do 2 f_equal.
      by rewrite <-app_assoc.
    + lia.
    + unfold snoc_column. rewrite length_zip_with. lia.
Qed.

(** From [(0, n)] the walk goes left to [(0, 0)]: every new row receives
    [n] gap markers, and the new string the first [n] characters of the
    string, last first. *)
Lemma walk_row_0 (fuel n : nat) (nr : list u32string) (ns : u32string) :
  (n ≤ cols)%nat → length nr = length results →
  traceback (S n + fuel) trace results str (Walk 0 (Z.of_nat n) nr ns)
  = Return (Walk 0 0
                 ((λ acc, acc ++ replicate n gap_char) <$> nr)
                 (ns ++ reverse (take n str))).
Proof.
  destruct Hgrid as (_ & H00 & _ & Hleft & _).
  revert nr ns. induction n as [|n IH]; intros nr ns Hn Hlen.
  - apply grid_cell_dir in H00 as (row & cell & Hrow & Hcell & Hdir).
    change (traceback (1 + fuel)) with (traceback (S fuel)).
    cbn [traceback]. change (Z.of_nat 0) with 0.
    rewrite (at_long_Some trace 0 row) by done. cbn [mbind outcome_bind].
    rewrite (at_long_Some row 0 cell) by done. cbn [mbind outcome_bind]. rewrite Hdir.
    rewrite take_0, app_nil_r. do 2 f_equal.
    rewrite <-(list_fmap_id nr) at 1. apply list_fmap_ext.
    intros _ acc _. by rewrite app_nil_r.
  - destruct (grid_cell_dir 0 (S n) left)
      as (row & cell & Hrow & Hcell & Hdir).
    { apply Hleft; [lia|done]. }
    destruct (lookup_lt_is_Some_2 str n) as [ch Hch]; [lia|].
    change (traceback (S (S n) + fuel)) with (traceback (S (S n + fuel))).
    cbn [traceback].
    rewrite (at_long_Some trace 0 row) by done.
    cbn [mbind outcome_bind].
    rewrite (at_long_Some row (Z.of_nat (S n)) cell)
      by (lia || by rewrite Nat2Z.id).
    cbn [mbind outcome_bind]. rewrite Hdir.
    rewrite (push_gaps_spec results) by done. cbn [mbind outcome_bind].
    replace (Z.of_nat (S n) - 1) with (Z.of_nat n) by lia.
    rewrite (at_long_Some str (Z.of_nat n) ch)
      by (lia || by rewrite Nat2Z.id).
    cbn [mbind outcome_bind]. rewrite IH.
    + do 2 f_equal.
      * unfold snoc_gaps. rewrite <-list_fmap_compose.
        apply list_fmap_ext. intros _ acc _. simpl.
        by rewrite <-app_assoc.
      * rewrite (take_S_r _ _ _ Hch), reverse_snoc.
        by rewrite <-app_assoc.
    + lia.
    + unfold snoc_gaps. by rewrite length_fmap.
Qed.
End Boundary_walk.

(** ** Rounds with an empty string *)

Section Empty_rounds.
Context (weight : gmap u32string float) (gap skew : float).

Lemma zip_with_start (results : list u32string) (rows : nat) :
  rectangular results rows →
  zip_with (λ acc row, acc ++ reverse (take rows row))
           (replicate (length results) []) results
  = reverse <$> results.
Proof.
  induction 1 as [|row rest Hrow Hrest IH]; [done|].
  simpl. rewrite IH. by rewrite take_ge by lia.
Qed.

(** Folding the empty string in appends a row of gap markers and leaves
    the rows as they are. *)
Lemma fold_in_empty_string (fuel : nat) (results : list u32string)
    (rows : nat) :
  results ≠ [] → rectangular results rows →
  fold_in weight gap skew (S rows + fuel) results []
  = Return (results ++ [replicate rows gap_char]).
Proof.
  intros Hne Hrect. destruct results as [|row0 rest] eqn:Hres; [done|].
  rewrite <-Hres in *. unfold fold_in.
  assert (results !! 0%nat = Some row0) as Hrow0 by by rewrite Hres.
  rewrite (at_Some _ _ _ Hrow0). cbn [mbind outcome_bind].
  rewrite (rectangular_lookup _ _ _ _ Hrect Hrow0).
  destruct (post_ends _ _ _
              (build_trace_post weight gap skew results [] rows 0
                                Hrect eq_refl))
    as [(trace & Htrace & Hgrid)|(e & _ & x & y & (_ & _ & Hy) & _)];
    [|by apply elem_of_nil in Hy].
  simpl length. rewrite Htrace. cbn [mbind outcome_bind].
  change (Z.of_nat 0) with 0.
  rewrite (walk_column_0 weight gap skew results [] rows 0 trace Hrect
                         eq_refl Hgrid)
    by (done || by rewrite length_replicate).
  cbn [mbind outcome_bind walk_new_results walk_new_string].
  rewrite zip_with_start by done. rewrite fmap_app, <-list_fmap_compose.
  f_equal. f_equal.
  - rewrite <-(list_fmap_id results) at 2. apply list_fmap_ext.
    intros _ row _. simpl. apply reverse_involutive.
  - simpl. by rewrite reverse_replicate.
Qed.

(** Folding a string into rows that are all empty turns every row into
    gap markers and appends the string as it is. *)
Lemma fold_in_empty_rows (fuel : nat) (results : list u32string)
    (str : u32string) :
  results ≠ [] → rectangular results 0 →
  fold_in weight gap skew (S (length str) + fuel) results str
  = Return (((λ _, replicate (length str) gap_char) <$> results) ++ [str]).
Proof.
  intros Hne Hrect. destruct results as [|row0 rest] eqn:Hres; [done|].
  rewrite <-Hres in *. unfold fold_in.
  assert (results !! 0%nat = Some row0) as Hrow0 by by rewrite Hres.
  rewrite (at_Some _ _ _ Hrow0). cbn [mbind outcome_bind].
  rewrite (rectangular_lookup _ _ _ _ Hrect Hrow0).
  destruct (post_ends _ _ _
              (build_trace_post weight gap skew results str 0 (length str)
                                Hrect eq_refl))
    as [(trace & Htrace & Hgrid)
       |(e & _ & x & y & (_ & (row & Hrow & Hx) & _) & _)].
  2:{ apply list_elem_of_lookup in Hrow as [k Hrow].
      pose proof (rectangular_lookup _ _ _ _ Hrect Hrow) as Hlen.
      destruct row; [by apply elem_of_nil in Hx|done]. }
  rewrite Htrace. cbn [mbind outcome_bind].
  change (Z.of_nat 0) with 0.
  rewrite (walk_row_0 weight gap skew results str 0 (length str) trace
                      eq_refl Hgrid)
    by (done || by rewrite length_replicate).
  cbn [mbind outcome_bind walk_new_results walk_new_string].
  rewrite fmap_app, <-list_fmap_compose. f_equal. f_equal.
  - rewrite fmap_replicate. simpl.
    rewrite reverse_replicate. symmetry. by apply const_fmap.
  - simpl. by rewrite take_ge, reverse_involutive by lia.
Qed.
End Empty_rounds.

(** ** The boundary cells *)

Section Boundary_cells.
Context (weight : gmap u32string float) (gap skew : float).
Implicit Types (trace : TraceMatrix) (cell : Trace).

(** A write that returns has changed the one cell. *)
Lemma cell_set_Return trace r c cell trace' :
  cell_set trace r c cell = Return trace' →
  ∀ r' c', lookup2 trace' r' c'
           = if decide (r' = r ∧ c' = c) then Some cell
             else lookup2 trace r' c'.
Proof.
  unfold cell_set.
  intros (row & Hrow%at_Return & Hset)%bind_Return_inv.
  apply bind_Return_inv in Hset as (old & Hold%at_Return & Hset).
  injection Hset as <-. intros r' c'.
  pose proof (lookup_lt_Some _ _ _ Hrow). pose proof (lookup_lt_Some _ _ _ Hold).
  unfold lookup2. destruct (decide (r' = r)) as [->|Hne].
  - rewrite list_lookup_insert_eq by lia. simpl. rewrite Hrow. simpl.
    destruct (decide (c' = c)) as [->|Hnc].
    + rewrite list_lookup_insert_eq by lia. by rewrite decide_True.
    + rewrite list_lookup_insert_ne by done. by rewrite decide_False by tauto.
  - rewrite list_lookup_insert_ne by done. by rewrite decide_False by tauto.
Qed.

(** The first boundary loop leaves [g, g, g, up] in the cells [(r, 0)] it
    has passed, and the other cells as they were. *)
Lemma init_column_Return trace0 rows g trace :
  for_each (init_column skew) (gap, trace0) (seq 1 rows) = Return (g, trace) →
  ∀ r c, lookup2 trace r c
         = if decide ((1 ≤ r ≤ rows)%nat ∧ c = 0%nat)
           then Some (let g := boundary_score gap skew r in
                      Trace.mk g g g up)
           else lookup2 trace0 r c.
Proof.
  intros Hrun.
  pose proof (for_each_Return
    (λ i st, st.1 = Nat.iter i (λ g, fadd g skew) gap
             ∧ ∀ r c, lookup2 st.2 r c
                      = if decide ((1 ≤ r ≤ i)%nat ∧ c = 0%nat)
                        then Some (let g := boundary_score gap skew r in
                                   Trace.mk g g g up)
                        else lookup2 trace0 r c)
    _ _ _ _ Hrun) as Hloop.
  rewrite length_seq in Hloop. apply Hloop; clear Hloop Hrun g trace.
  - split; [done|]. intros r c. by rewrite decide_False by lia.
  - intros i x [g trace] [g' trace'] [-> Hi]%lookup_seq Hbody [Hg Hcells].
    simpl in Hg, Hcells. subst g. unfold init_column in Hbody.
    apply bind_Return_inv in Hbody as (trace1 & Hset & Hret).
    injection Hret as <- <-. split; [done|]. simpl. intros r c.
    rewrite (cell_set_Return _ _ _ _ _ Hset), Hcells.
    destruct (decide (r = (1 + i)%nat ∧ c = 0%nat)) as [[-> ->]|Hne].
    + rewrite decide_True by lia. unfold boundary_score.
      by replace (1 + i - 1)%nat with i by lia.
    + destruct (decide ((1 ≤ r ≤ i)%nat ∧ c = 0%nat)).
      * by rewrite decide_True by lia.
      * by rewrite decide_False by lia.
Qed.

(** The second boundary loop, likewise, for the cells [(0, c)]. *)
Lemma init_row_Return trace0 cols g trace :
  for_each (init_row skew) (gap, trace0) (seq 1 cols) = Return (g, trace) →
  ∀ r c, lookup2 trace r c
         = if decide (r = 0%nat ∧ (1 ≤ c ≤ cols)%nat)
           then Some (let g := boundary_score gap skew c in
                      Trace.mk g g g left)
           else lookup2 trace0 r c.
Proof.
  intros Hrun.
  pose proof (for_each_Return
    (λ i st, st.1 = Nat.iter i (λ g, fadd g skew) gap
             ∧ ∀ r c, lookup2 st.2 r c
                      = if decide (r = 0%nat ∧ (1 ≤ c ≤ i)%nat)
                        then Some (let g := boundary_score gap skew c in
                                   Trace.mk g g g left)
                        else lookup2 trace0 r c)
    _ _ _ _ Hrun) as Hloop.
  rewrite length_seq in Hloop. apply Hloop; clear Hloop Hrun g trace.
  - split; [done|]. intros r c. by rewrite decide_False by lia.
  - intros i x [g trace] [g' trace'] [-> Hi]%lookup_seq Hbody [Hg Hcells].
    simpl in Hg, Hcells. subst g. unfold init_row in Hbody.
    apply bind_Return_inv in Hbody as (trace1 & Hset & Hret).
    injection Hret as <- <-. split; [done|]. simpl. intros r c.
    rewrite (cell_set_Return _ _ _ _ _ Hset), Hcells.
    destruct (decide (r = 0%nat ∧ c = (1 + i)%nat)) as [[-> ->]|Hne].
    + rewrite decide_True by lia. unfold boundary_score.
      by replace (1 + i - 1)%nat with i by lia.
    + destruct (decide (r = 0%nat ∧ (1 ≤ c ≤ i)%nat)).
      * by rewrite decide_True by lia.
      * by rewrite decide_False by lia.
Qed.

(** The loops over the interior write no boundary cell. *)
Lemma fill_Return results str rows cols trace0 trace :
  for_each (λ trace r,
              for_each (fill_cell weight gap skew results str r)
                       trace (seq 1 cols))
           trace0 (seq 1 rows) = Return trace →
  ∀ r c, (r = 0 ∨ c = 0)%nat → lookup2 trace r c = lookup2 trace0 r c.
Proof.
  intros Hrun.
  apply (for_each_Return
           (λ _ trace, ∀ r c, (r = 0 ∨ c = 0)%nat →
                              lookup2 trace r c = lookup2 trace0 r c)
           _ _ _ _ Hrun); [done|].
  clear Hrun trace. intros i r1 trace1 trace [-> Hi]%lookup_seq Hrow Hkeep.
  apply (for_each_Return
           (λ _ trace, ∀ r c, (r = 0 ∨ c = 0)%nat →
                              lookup2 trace r c = lookup2 trace0 r c)
           _ _ _ _ Hrow); [done|].
  clear Hrow Hkeep trace trace1.
  intros j c1 trace1 trace [-> Hj]%lookup_seq Hcell Hkeep r c Hrc.
  unfold fill_cell in Hcell.
  apply bind_Return_inv in Hcell as (? & _ & Hcell).
  apply bind_Return_inv in Hcell as (cu & _ & Hcell).
  apply bind_Return_inv in Hcell as (cl & _ & Hcell).
  apply bind_Return_inv in Hcell as (d & _ & Hcell).
  apply bind_Return_inv in Hcell as (cg & _ & Hcell).
  rewrite (cell_set_Return _ _ _ _ _ Hcell), decide_False by lia.
  by apply Hkeep.
Qed.
End Boundary_cells.

(** ** The path of the trace-back *)

Section Path.
Implicit Types (moves : list TraceDir) (s : u32string).

Lemma steps_cons g d moves :
  steps g (d :: moves)
  = if decide (d = g) then steps g moves else S (steps g moves).
Proof.
  unfold steps. rewrite filter_cons.
  destruct (decide (d = g)) as [->|Hne].
  - by rewrite decide_False by (intros H; by apply H).
  - by rewrite decide_True by done.
Qed.

Lemma steps_app g moves1 moves2 :
  steps g (moves1 ++ moves2) = (steps g moves1 + steps g moves2)%nat.
Proof. unfold steps. by rewrite filter_app, length_app. Qed.

Lemma steps_reverse g moves : steps g (reverse moves) = steps g moves.
Proof.
  induction moves as [|d moves IH]; [done|].
  rewrite reverse_cons, steps_app, IH, !steps_cons.
  change (steps g []) with 0%nat. case_decide; lia.
Qed.

Lemma length_spread g moves s i : length (spread g moves s i) = length moves.
Proof.
  revert i. induction moves as [|d moves IH]; intros i; [done|].
  simpl. case_decide; simpl; by rewrite IH.
Qed.

Lemma spread_app g moves1 moves2 s i :
  spread g (moves1 ++ moves2) s i
  = spread g moves1 s i ++ spread g moves2 s (i + steps g moves1).
Proof.
  revert i. induction moves1 as [|d moves1 IH]; intros i.
  - simpl. by rewrite Nat.add_0_r.
  - simpl. rewrite steps_cons. case_decide; simpl; rewrite IH; [done|].
    do 3 f_equal. lia.
Qed.

(** Read backwards, what the walk gathers is the string laid out along the
    reversed path. *)
Lemma reverse_gather g moves s r :
  (steps g moves ≤ r)%nat →
  reverse (gather g moves s r)
  = spread g (reverse moves) s (r - steps g moves).
Proof.
  revert r. induction moves as [|d moves IH]; intros r Hr; [done|].
  rewrite steps_cons in Hr. simpl. rewrite steps_cons.
  rewrite !reverse_cons, spread_app. simpl.
  destruct (decide (d = g)) as [->|Hne].
  - by rewrite reverse_cons, IH by done.
  - rewrite reverse_cons, IH by lia. rewrite steps_reverse.
    do 2 f_equal; [lia|]. f_equal. lia.
Qed.

(** Every move takes a character of the rows or of the string. *)
Lemma steps_length moves :
  none ∉ moves →
  (steps left moves `max` steps up moves ≤ length moves
   ∧ length moves ≤ steps left moves + steps up moves)%nat.
Proof.
  induction moves as [|d moves IH]; intros Hnone.
  { change (steps left []) with 0%nat. change (steps up []) with 0%nat.
    simpl. lia. }
  apply not_elem_of_cons in Hnone as [Hd Hnone]. specialize (IH Hnone).
  rewrite !steps_cons. simpl length. destruct d; repeat case_decide; try done;
    lia.
Qed.

Lemma zip_with_nest {A B} (f g : A → B → A) (l : list A) (k : list B) :
  zip_with f (zip_with g l k) k = zip_with (λ a b, f (g a b) b) l k.
Proof.
  revert l. induction k as [|b k IH]; intros [|a l]; [done..|].
  simpl. by rewrite IH.
Qed.
End Path.

Section Path_walk.
Context (weight : gmap u32string float) (gap skew : float).
Context (results : list u32string) (str : u32string) (rows cols : nat).
Context (trace : TraceMatrix).
Hypothesis Hrect : rectangular results rows.
Hypothesis Hcols : length str = cols.
Hypothesis Hgrid : grid_ok weight gap skew results str rows cols trace.

Lemma zip_with_app_nil (nr : list u32string) :
  length nr = length results →
  zip_with (λ acc (_ : u32string), acc ++ []) nr results = nr.
Proof.
  clear. revert nr. induction results as [|row rest IH]; intros [|acc nr] Hlen;
    try done.
  simpl in *. rewrite app_nil_r, IH by lia. done.
Qed.

(** A walk that ends has made moves, none of them [none], as many that
    take a character of the rows as rows were left and as many that take a
    character of the string as columns were left, and has gathered the
    rows and the string along them. *)
Lemma traceback_path (fuel : nat) (w w' : walk) :
  walk_inv results str rows cols w →
  traceback fuel trace results str w = Return w' →
  ∃ moves,
    (none ∉ moves)
    ∧ steps left moves = Z.to_nat (walk_r w)
    ∧ steps up moves = Z.to_nat (walk_c w)
    ∧ walk_new_results w'
      = zip_with (λ acc row,
                    acc ++ gather left moves row (Z.to_nat (walk_r w)))
                 (walk_new_results w) results
    ∧ walk_new_string w'
      = walk_new_string w ++ gather up moves str (Z.to_nat (walk_c w)).
Proof.
  revert w. induction fuel as [|fuel IH]; intros [r c nr ns] Hinv Hrun;
    [done|].
  pose proof Hinv as (Hr & Hc & Hlen & Hrows & _). simpl in Hr, Hc, Hlen, Hrows.
  destruct (grid_dir weight gap skew results str rows cols trace Hcols Hgrid
              (Z.to_nat r) (Z.to_nat c)) as (cell & Hcell & Hdir); [lia..|].
  unfold lookup2 in Hcell. apply bind_Some in Hcell as (row & Hrow & Hcell).
  cbn [traceback] in Hrun.
  rewrite (at_long_Some trace r row) in Hrun by (done || lia).
  cbn [mbind outcome_bind] in Hrun.
  rewrite (at_long_Some row c cell) in Hrun by (done || lia).
  cbn [mbind outcome_bind] in Hrun.
  pose proof (Forall2_length _ _ _ Hrows) as Hnr.
  cbn [walk_r walk_c walk_new_results walk_new_string].
  destruct (Trace.dir cell).
  - injection Hrun as <-. exists []. simpl.
    split_and!; [apply not_elem_of_nil|unfold steps; simpl; lia..| |].
    + by rewrite zip_with_app_nil.
    + by rewrite app_nil_r.
  - destruct Hdir as [Hr1 Hc1].
    rewrite (push_column_spec results rows Hrect) in Hrun by (done || lia).
    cbn [mbind outcome_bind] in Hrun.
    destruct (walk_diag results str rows cols Hrect Hcols r c nr ns Hinv)
      as (ch & Hch & Hinv'); [lia..|].
    rewrite (at_long_Some str (c - 1) ch) in Hrun by (done || lia).
    cbn [mbind outcome_bind] in Hrun.
    destruct (IH _ Hinv' Hrun) as (moves & Hnone & Hleft & Hup & Hnr' & Hns').
    cbn [walk_r walk_c walk_new_results walk_new_string] in *.
    exists (diag :: moves). split_and!.
    + apply not_elem_of_cons. done.
    + rewrite steps_cons, decide_False, Hleft by done. lia.
    + rewrite steps_cons, decide_False, Hup by done. lia.
    + rewrite Hnr'. unfold snoc_column. rewrite zip_with_nest.
      apply zip_with_ext; [|done..]. intros acc row'. cbn [gather].
      rewrite decide_False by done. rewrite <-app_assoc. simpl.
      by replace (Z.to_nat r - 1)%nat with (Z.to_nat (r - 1)) by lia.
    + rewrite Hns'. cbn [gather]. rewrite decide_False by done.
      rewrite <-app_assoc. simpl.
      replace (Z.to_nat c - 1)%nat with (Z.to_nat (c - 1)) by lia.
      by rewrite (list_lookup_total_correct _ _ _ Hch).
  - rewrite (push_column_spec results rows Hrect) in Hrun by (done || lia).
    cbn [mbind outcome_bind] in Hrun.
    pose proof (walk_up results str rows cols Hrect Hcols r c nr ns Hinv
                  ltac:(lia)) as Hinv'.
    destruct (IH _ Hinv' Hrun) as (moves & Hnone & Hleft & Hup & Hnr' & Hns').
    cbn [walk_r walk_c walk_new_results walk_new_string] in *.
    exists (up :: moves). split_and!.
    + apply not_elem_of_cons. done.
    + rewrite steps_cons, decide_False, Hleft by done. lia.
    + by rewrite steps_cons, decide_True, Hup by done.
    + rewrite Hnr'. unfold snoc_column. rewrite zip_with_nest.
      apply zip_with_ext; [|done..]. intros acc row'. cbn [gather].
      rewrite decide_False by done. rewrite <-app_assoc. simpl.
      by replace (Z.to_nat r - 1)%nat with (Z.to_nat (r - 1)) by lia.
    + rewrite Hns'. cbn [gather]. rewrite decide_True by done.
      by rewrite <-app_assoc.
  - rewrite (push_gaps_spec results) in Hrun by done.
    cbn [mbind outcome_bind] in Hrun.
    destruct (walk_left results str rows cols Hcols r c nr ns Hinv)
      as (ch & Hch & Hinv'); [lia|].
    rewrite (at_long_Some str (c - 1) ch) in Hrun by (done || lia).
    cbn [mbind outcome_bind] in Hrun.
    destruct (IH _ Hinv' Hrun) as (moves & Hnone & Hleft & Hup & Hnr' & Hns').
    cbn [walk_r walk_c walk_new_results walk_new_string] in *.
    exists (left :: moves). split_and!.
    + apply not_elem_of_cons. done.
    + by rewrite steps_cons, decide_True, Hleft by done.
    + rewrite steps_cons, decide_False, Hup by done. lia.
    + rewrite Hnr'. unfold snoc_gaps. rewrite zip_with_fmap_l.
      apply zip_with_ext; [|done..]. intros acc row'. cbn [gather].
      rewrite decide_True by done. by rewrite <-app_assoc.
    + rewrite Hns'. cbn [gather]. rewrite decide_False by done.
      rewrite <-app_assoc. simpl.
      replace (Z.to_nat c - 1)%nat with (Z.to_nat (c - 1)) by lia.
      by rewrite (list_lookup_total_correct _ _ _ Hch).
Qed.
End Path_walk.

Section Path_round.
Context (weight : gmap u32string float) (gap skew : float).

Lemma zip_with_from_nil (f : u32string → u32string)
    (results : list u32string) :
  zip_with (λ acc row, acc ++ f row) (replicate (length results) []) results
  = f <$> results.
Proof. induction results as [|row rest IH]; [done|]. simpl. by rewrite IH. Qed.

(** A round that returns has laid the rows and the string out along one
    path: the rows take a gap marker where the path moves left, the string
    where it moves up. *)
Lemma fold_in_path (fuel : nat) (results : list u32string) (str : u32string)
    (rows : nat) (results' : list u32string) :
  results ≠ [] → rectangular results rows →
  fold_in weight gap skew fuel results str = Return results' →
  ∃ moves,
    (none ∉ moves)
    ∧ steps left moves = rows
    ∧ steps up moves = length str
    ∧ results' = ((λ row, spread left moves row 0) <$> results)
                   ++ [spread up moves str 0].
Proof.
  intros Hne Hrect Hrun. destruct results as [|row0 rest] eqn:Hres; [done|].
  rewrite <-Hres in *. unfold fold_in in Hrun.
  assert (results !! 0%nat = Some row0) as Hrow0 by by rewrite Hres.
  rewrite (at_Some _ _ _ Hrow0) in Hrun. cbn [mbind outcome_bind] in Hrun.
  rewrite (rectangular_lookup _ _ _ _ Hrect Hrow0) in Hrun.
  apply bind_Return_inv in Hrun as (trace & Htrace & Hrun).
  apply bind_Return_inv in Hrun as (w & Hwalk & Hrun).
  pose proof (post_Return _ _ _ _ Htrace
                (build_trace_post weight gap skew results str rows
                   (length str) Hrect eq_refl)) as Hgrid.
  destruct (traceback_path weight gap skew results str rows (length str)
              trace Hrect eq_refl Hgrid fuel _ w
              (walk_inv_start results str rows (length str) Hrect eq_refl)
              Hwalk)
    as (moves & Hnone & Hleft & Hup & Hnr & Hns).
  cbn [walk_r walk_c walk_new_results walk_new_string] in *.
  rewrite Nat2Z.id in *. rewrite zip_with_from_nil in Hnr.
  injection Hrun as <-. exists (reverse moves). split_and!.
  - by rewrite elem_of_reverse.
  - by rewrite steps_reverse.
  - by rewrite steps_reverse.
  - rewrite fmap_app, Hnr, Hns, <-list_fmap_compose. f_equal.
    + apply list_fmap_ext. intros _ row _. simpl.
      rewrite reverse_gather by lia. by rewrite Hleft, Nat.sub_diag.
    + simpl. rewrite reverse_gather by lia. by rewrite Hup, Nat.sub_diag.
Qed.
End Path_round.

(** ** The scores a run depends on *)

Section Frame.
Context (weight1 weight2 : gmap u32string float) (gap skew : float).

(** Two matrices that agree on the pairs of a round give the same round. *)
Lemma diagonal_of_frame (results : list u32string) (str : u32string)
    (r c : nat) :
  (∀ row x y, row ∈ results → x ∈ row → x ≠ gap_char → y ∈ str →
              weight1 !! key_of x y = weight2 !! key_of x y) →
  diagonal_of weight1 results str r c = diagonal_of weight2 results str r c.
Proof.
  intros Hsame. unfold diagonal_of. apply for_each_ext.
  intros diagonal k _. unfold diagonal_step.
  destruct (at_ results k) as [row| | |] eqn:Hrow; [|done..].
  cbn [mbind outcome_bind].
  destruct (at_ row (r - 1)) as [x| | |] eqn:Hx; [|done..].
  cbn [mbind outcome_bind].
  destruct (at_ str (c - 1)) as [y| | |] eqn:Hy; [|done..].
  cbn [mbind outcome_bind]. case_decide as Hgap; [done|].
  apply at_Return in Hrow, Hx, Hy.
  rewrite (Hsame row x y); eauto using list_elem_of_lookup_2.
Qed.

Lemma build_trace_frame (results : list u32string) (str : u32string)
    (rows cols : nat) :
  (∀ row x y, row ∈ results → x ∈ row → x ≠ gap_char → y ∈ str →
              weight1 !! key_of x y = weight2 !! key_of x y) →
  build_trace weight1 gap skew results str rows cols
  = build_trace weight2 gap skew results str rows cols.
Proof.
  intros Hsame. unfold build_trace.
  destruct (for_each (init_column skew) _ _) as [[g1 trace1]| | |]; [|done..].
  cbn [mbind outcome_bind].
  destruct (for_each (init_row skew) _ _) as [[g2 trace2]| | |]; [|done..].
  cbn [mbind outcome_bind].
  apply for_each_ext. intros trace r _. apply for_each_ext. intros trace' c _.
  unfold fill_cell. by rewrite diagonal_of_frame.
Qed.

Lemma fold_in_frame (fuel : nat) (results : list u32string)
    (str : u32string) :
  (∀ row x y, row ∈ results → x ∈ row → x ≠ gap_char → y ∈ str →
              weight1 !! key_of x y = weight2 !! key_of x y) →
  fold_in weight1 gap skew fuel results str
  = fold_in weight2 gap skew fuel results str.
Proof.
  intros Hsame. unfold fold_in.
  destruct (at_ results 0) as [row0| | |]; [|done..].
  cbn [mbind outcome_bind]. by rewrite build_trace_frame.
Qed.
End Frame.

(** ** The results *)

Section Results.
Context (weight : gmap u32string float) (gap skew : float).
Implicit Types (strings results : list u32string) (fuel : nat).

Lemma align_all_nil fuel :
  align_all weight gap skew fuel [] = Throw (invalid_argument no_strings).
Proof. reflexivity. Qed.

(** With a budget above the sum of the lengths, [align_all] ends in one of
    three ways. *)
Lemma align_all_ends fuel strings :
  (total_length strings < fuel)%nat →
  (strings = []
   ∧ align_all weight gap skew fuel strings = Throw (invalid_argument no_strings))
  ∨ (strings ≠ []
     ∧ ∃ results, align_all weight gap skew fuel strings = Return results
                  ∧ aligned weight strings results)
  ∨ (strings ≠ []
     ∧ ∃ e, align_all weight gap skew fuel strings = Throw e
            ∧ missing_score weight strings e).
Proof.
  intros Hfuel. destruct (decide (strings = [])) as [->|Hne]; [by left|].
  right. destruct (post_ends _ _ _ (align_all_post weight gap skew fuel strings
                                      Hne Hfuel))
    as [(results & ? & ?)|(e & ? & ?)]; [left|right]; eauto.
Qed.

(** Whatever the budget, what [align_all] returns is an alignment of its
    strings. *)
Lemma align_all_Return fuel strings results :
  align_all weight gap skew fuel strings = Return results →
  strings ≠ [] ∧ aligned weight strings results.
Proof.
  intros Hret.
  pose proof (align_all_settles weight gap skew fuel
                (fuel `max` S (total_length strings)) strings
                ltac:(lia)) as Hmore.
  rewrite Hret in Hmore. specialize (Hmore ltac:(done)).
  destruct (align_all_ends (fuel `max` S (total_length strings)) strings)
    as [[_ H]|[(Hne & results' & H & Hal)|(_ & e & H & _)]]; [lia|..];
    rewrite Hmore in H; simplify_eq. done.
Qed.

(** A pair without a score makes [align_all] throw. *)
Lemma align_all_throws fuel strings k s strk strs x y :
  (total_length strings < fuel)%nat →
  (k < s)%nat → strings !! k = Some strk → strings !! s = Some strs →
  x ∈ strk → x ≠ gap_char → y ∈ strs →
  weight !! key_of x y = None →
  ∃ e, align_all weight gap skew fuel strings = Throw e
       ∧ missing_score weight strings e.
Proof.
  intros Hfuel Hks Hk Hs Hx Hgap Hy Hkey.
  destruct (align_all_ends fuel strings Hfuel)
    as [[-> _]|[(_ & results & _ & Hal)|(_ & e & H & He)]]; [done| |eauto].
  destruct Hal as (_ & _ & Hkeys).
  destruct (Hkeys k s strk strs x y) as [v Hv]; [done..|]. congruence.
Qed.
End Results.

(** C1, as amended.  Whatever [align_all] returns, all returned strings
    have one length; and when no input string contains the gap marker,
    every column has a character other than the gap marker in some returned
    string. *)
Theorem align_all_rectangular_filled
    (weight : gmap u32string float) (gap skew : float) (fuel : nat)
    (strings results : list u32string) :
  align_all weight gap skew fuel strings = Return results →
  ∃ width, rectangular results width
           ∧ (Forall gap_free strings → columns_filled results width).
Proof.
  intros [_ (_ & (width & Hrect & _ & Hfilled) & _)]%align_all_Return.
  eauto.
Qed.

(** The rows returned in the scenario of the specification. *)
Lemma align_all_rectangular_filled_scenario :
  ∃ width,
    rectangular [U "A" ++ [gap_char] ++ U "C"; U "AGC"] width
    ∧ (Forall gap_free scenario_strings →
       columns_filled [U "A" ++ [gap_char] ++ U "C"; U "AGC"] width).
Proof.
  apply (align_all_rectangular_filled scenario_matrix scenario_gap
           scenario_skew 6 scenario_strings).
  vm_compute. reflexivity.
Defined.

(** C1, as stated, fails on an input that holds the gap marker: the list of
    the one string "⋄" is returned as it is, and its only column has no
    other character. *)
Lemma align_all_gap_marker_input :
  align_all ∅ fzero fzero 1 [[gap_char]] = Return [[gap_char]]
  ∧ rectangular [[gap_char]] 1
  ∧ ¬ column_filled [[gap_char]] 0.
Proof.
  split; [reflexivity|]. split; [by repeat constructor|].
  intros (k & row & ch & Hrow & Hch & Hgap).
  destruct k as [|k]; simplify_eq/=.
Qed.

(** C2.  On ["AC", "AGC"] with the matrix of the scenario, gap open -2 and
    gap extension -1, [align_all] returns ["A⋄C", "AGC"], two rows of three
    characters; six iterations of the trace-back loop are enough, and any
    larger budget gives the same. *)
Theorem align_all_scenario (fuel : nat) :
  align_all scenario_matrix scenario_gap scenario_skew (6 + fuel)
            scenario_strings
  = Return [U "A" ++ [gap_char] ++ U "C"; U "AGC"]
  ∧ rectangular [U "A" ++ [gap_char] ++ U "C"; U "AGC"] 3.
Proof.
  split; [|by repeat constructor].
  assert (align_all scenario_matrix scenario_gap scenario_skew 6
                    scenario_strings
          = Return [U "A" ++ [gap_char] ++ U "C"; U "AGC"]) as H6
    by (vm_compute; reflexivity).
  rewrite <-H6.
  apply (align_all_settles _ _ _ 6 (6 + fuel)); [lia|]. by rewrite H6.
Qed.

(** C3.  In the matrix that "Build the matrix" returns, every interior cell
    [(r, c)] holds the largest of its three candidates, and its direction
    is chosen by comparing that value with the diagonal candidate first,
    then with the vertical one: [diag] when it equals the diagonal
    candidate, otherwise [up] when it equals the vertical candidate,
    otherwise [left]. *)
Theorem build_trace_direction
    (weight : gmap u32string float) (gap skew : float)
    (results : list u32string) (str : u32string) (rows : nat)
    (trace : TraceMatrix) (r c : nat) :
  rectangular results rows →
  build_trace weight gap skew results str rows (length str) = Return trace →
  (1 ≤ r ≤ rows)%nat → (1 ≤ c ≤ length str)%nat →
  ∃ cell cell_diag d,
    lookup2 trace r c = Some cell
    ∧ lookup2 trace (r - 1) (c - 1) = Some cell_diag
    ∧ diagonal_of weight results str r c = Return d
    ∧ let diagonal := fadd d (Trace.val cell_diag) in
      Trace.val cell = fmax3 diagonal (Trace.up cell) (Trace.left cell)
      ∧ Trace.dir cell
        = if feq (Trace.val cell) diagonal then diag
          else if feq (Trace.val cell) (Trace.up cell) then up
          else left.
Proof.
  intros Hrect Hbuild Hr Hc.
  pose proof (post_Return _ _ _ _ Hbuild
                (build_trace_post weight gap skew results str rows
                   (length str) Hrect eq_refl)) as (_ & _ & _ & _ & Hint).
  destruct (Hint r c Hr Hc I) as (cu & cl & cg & d & _ & _ & Hcg & Hd & Hcell).
  exists (interior gap skew cu cl cg d), cg, d. done.
Qed.

(** Cell [(1, 2)] of the matrix of the scenario. *)
Lemma build_trace_direction_scenario :
  ∃ cell cell_diag d,
    lookup2 scenario_trace 1 2 = Some cell
    ∧ lookup2 scenario_trace (1 - 1) (2 - 1) = Some cell_diag
    ∧ diagonal_of scenario_matrix [U "AC"] (U "AGC") 1 2 = Return d
    ∧ let diagonal := fadd d (Trace.val cell_diag) in
      Trace.val cell = fmax3 diagonal (Trace.up cell) (Trace.left cell)
      ∧ Trace.dir cell
        = if feq (Trace.val cell) diagonal then diag
          else if feq (Trace.val cell) (Trace.up cell) then up
          else left.
Proof.
  apply (build_trace_direction scenario_matrix scenario_gap scenario_skew
           [U "AC"] (U "AGC") 2 scenario_trace 1 2).
  - by repeat constructor.
  - vm_compute. reflexivity.
  - lia.
  - simpl. lia.
Defined.

(** Exact ties, evaluated on "A" against "A" with gap open -2 and gap
    extension -1, where the vertical and the horizontal candidates of cell
    [(1, 1)] are both -3: with a score of -3 for "AA" the three candidates
    are equal and the direction is [diag]; with a score of -5 the diagonal
    candidate is smaller, the two others tie, and the direction is [up]. *)
Example tie_prefers_diag :
  (λ trace, (Trace.val <$> lookup2 trace 1 1, Trace.up <$> lookup2 trace 1 1,
             Trace.left <$> lookup2 trace 1 1, dir_at trace 1 1))
    <$> (build_trace {[ U "AA" := float_of_Z (-3) ]} scenario_gap
                     scenario_skew [U "A"] (U "A") 1 1)
  = Return (Some (float_of_Z (-3)), Some (float_of_Z (-3)),
            Some (float_of_Z (-3)), Some diag).
Proof. vm_compute. reflexivity. Qed.

Example tie_prefers_up :
  (λ trace, (Trace.val <$> lookup2 trace 1 1, Trace.up <$> lookup2 trace 1 1,
             Trace.left <$> lookup2 trace 1 1, dir_at trace 1 1))
    <$> (build_trace {[ U "AA" := float_of_Z (-5) ]} scenario_gap
                     scenario_skew [U "A"] (U "A") 1 1)
  = Return (Some (float_of_Z (-3)), Some (float_of_Z (-3)),
            Some (float_of_Z (-3)), Some up).
Proof. vm_compute. reflexivity. Qed.

Lemma key_of_canonical (x y : char32_t) :
  key_of x y = [N.min x y; N.max x y] ∧ key_of x y = key_of y x.
Proof.
  unfold key_of.
  destruct (N.ltb_spec y x), (N.ltb_spec x y); split; f_equal; try lia;
    f_equal; lia.
Qed.

(** The step of the scan on a character [x] that is no gap marker: the one
    lookup is at the key of [x] and [y] in ascending order. *)
Lemma diagonal_step_lookup (weight : gmap u32string float)
    (results : list u32string) (str : u32string) (r c : nat)
    (diagonal : float) (k : nat) (row : u32string) (x y : char32_t) :
  results !! k = Some row → row !! (r - 1)%nat = Some x →
  str !! (c - 1)%nat = Some y → x ≠ gap_char →
  diagonal_step weight results str r c diagonal k
  = match weight !! [N.min x y; N.max x y] with
    | None =>
        Throw (invalid_argument (missing_from_matrix [N.min x y; N.max x y]))
    | Some value => Return (if flt diagonal value then value else diagonal)
    end.
Proof.
  intros Hrow Hx Hy Hgap. unfold diagonal_step.
  rewrite (at_Some _ _ _ Hrow). simpl. rewrite (at_Some _ _ _ Hx). simpl.
  rewrite (at_Some _ _ _ Hy). simpl. rewrite decide_False by done.
  by destruct (key_of_canonical x y) as [-> _].
Qed.

(** The scan of a column that returns has kept [lowest] or the score that
    the matrix holds under the canonical key of one of the pairs of the
    column. *)
Lemma diagonal_of_canonical (weight : gmap u32string float)
    (results : list u32string) (str : u32string) (r c : nat) (d : float) :
  diagonal_of weight results str r c = Return d →
  d = lowest
  ∨ ∃ k row x y,
      results !! k = Some row ∧ row !! (r - 1)%nat = Some x ∧ x ≠ gap_char
      ∧ str !! (c - 1)%nat = Some y ∧ weight !! key_of x y = Some d.
Proof.
  intros Hrun. unfold diagonal_of in Hrun.
  apply (for_each_Return
           (λ _ d, d = lowest
                   ∨ ∃ k row x y,
                       results !! k = Some row
                       ∧ row !! (r - 1)%nat = Some x ∧ x ≠ gap_char
                       ∧ str !! (c - 1)%nat = Some y
                       ∧ weight !! key_of x y = Some d)
           _ _ _ _ Hrun); [by left|].
  clear Hrun d. intros i k d d' _ Hstep Hd. unfold diagonal_step in Hstep.
  apply bind_Return_inv in Hstep as (row & Hrow%at_Return & Hstep).
  apply bind_Return_inv in Hstep as (x & Hx%at_Return & Hstep).
  apply bind_Return_inv in Hstep as (y & Hy%at_Return & Hstep).
  case_decide as Hgap; [by injection Hstep as <-|].
  destruct (weight !! key_of x y) as [value|] eqn:Hkey; [|done].
  injection Hstep as <-. destruct (flt d value); [|done].
  right. by exists k, row, x, y.
Qed.

(** Two matrices that agree on the keys in ascending order give the same
    run: no other key is read. *)
Lemma align_all_ascending_keys (weight weight' : gmap u32string float)
    (gap skew : float) (fuel : nat) (strings : list u32string) :
  (∀ a b, (a ≤ b)%N → weight' !! [a; b] = weight !! [a; b]) →
  align_all weight' gap skew fuel strings
  = align_all weight gap skew fuel strings.
Proof.
  intros Hagree. unfold align_all. case_decide; [done|].
  destruct (at_ strings 0) as [first| | |]; [|done..].
  cbn [mbind outcome_bind]. apply for_each_ext. intros results s _.
  destruct (at_ strings s) as [str| | |]; [|done..].
  cbn [mbind outcome_bind]. apply fold_in_frame.
  intros row x y _ _ _ _. destruct (key_of_canonical x y) as [-> _].
  apply Hagree. lia.
Qed.

(** C4.  The key of a pair is the two characters in ascending order, the
    same for [(x, y)] and [(y, x)].  Every comparison of a character [x] of
    the alignment that is no gap marker with a character [y] of the string
    reads the matrix under that key and no other, whether the key is there
    or not: the step returns with the score stored under it or throws with
    a message that names it; a scan that returns has kept a score stored
    under the canonical key of one of its pairs; and what the matrix holds
    under keys that are not in ascending order changes nothing of a run.
    A run that returns has found every compared pair under its canonical
    key, and when a compared pair has no entry under it, [align_all]
    throws, with a message that names a canonical key the matrix lacks,
    whatever the matrix holds under the reversed key. *)
Theorem align_all_canonical_key
    (weight : gmap u32string float) (gap skew : float) :
  (∀ x y, key_of x y = [N.min x y; N.max x y] ∧ key_of y x = key_of x y)
  ∧ (∀ results str r c diagonal i row x y,
       results !! i = Some row → row !! (r - 1)%nat = Some x →
       str !! (c - 1)%nat = Some y → x ≠ gap_char →
       diagonal_step weight results str r c diagonal i
       = match weight !! key_of x y with
         | None => Throw (invalid_argument (missing_from_matrix (key_of x y)))
         | Some value =>
             Return (if flt diagonal value then value else diagonal)
         end)
  ∧ (∀ results str r c d,
       diagonal_of weight results str r c = Return d →
       d = lowest
       ∨ ∃ k row x y,
           results !! k = Some row ∧ row !! (r - 1)%nat = Some x
           ∧ x ≠ gap_char ∧ str !! (c - 1)%nat = Some y
           ∧ weight !! key_of x y = Some d)
  ∧ (∀ weight' fuel strings,
       (∀ a b, (a ≤ b)%N → weight' !! [a; b] = weight !! [a; b]) →
       align_all weight' gap skew fuel strings
       = align_all weight gap skew fuel strings)
  ∧ (∀ fuel strings results k s strk strs x y,
       align_all weight gap skew fuel strings = Return results →
       (k < s)%nat → strings !! k = Some strk → strings !! s = Some strs →
       x ∈ strk → x ≠ gap_char → y ∈ strs →
       is_Some (weight !! key_of x y))
  ∧ (∀ fuel strings k s strk strs x y,
       (total_length strings < fuel)%nat →
       (k < s)%nat → strings !! k = Some strk → strings !! s = Some strs →
       x ∈ strk → x ≠ gap_char → y ∈ strs →
       weight !! key_of x y = None →
       ∃ x' y',
         align_all weight gap skew fuel strings
         = Throw (invalid_argument (missing_from_matrix (key_of x' y')))
         ∧ weight !! key_of x' y' = None).
Proof.
  split_and!.
  - intros x y. by destruct (key_of_canonical x y) as [-> <-].
  - intros results str r c diagonal i row x y Hrow Hx Hy Hgap.
    rewrite (diagonal_step_lookup weight results str r c diagonal i row x y)
      by done.
    by destruct (key_of_canonical x y) as [<- _].
  - intros results str r c d. apply diagonal_of_canonical.
  - intros weight' fuel strings. apply align_all_ascending_keys.
  - intros fuel strings results k s strk strs x y Hrun.
    destruct (align_all_Return _ _ _ _ _ _ Hrun) as [_ (_ & _ & Hkeys)].
    apply Hkeys.
  - intros fuel strings k s strk strs x y Hfuel Hks Hk Hs Hx Hgap Hy Hkey.
    destruct (align_all_throws weight gap skew fuel strings k s strk strs x y)
      as (e & Hthrow & Hmiss); [done..|].
    destruct Hmiss as (_ & _ & _ & _ & x' & y' & _ & _ & _ & _ & _ & _ & ? & ->).
    eauto.
Qed.

(** "B" against "A", in that order, with a matrix that holds both "AB" and
    "BA": the step reads the score of "AB", and the run is the run of the
    matrix that holds "AB" only.  "A" against "B" with a matrix that holds
    the reversed key "BA" only: the run throws. *)
Lemma align_all_canonical_key_reversed :
  diagonal_step both_orders_matrix [U "B"] (U "A") 1 1 lowest 0
  = Return (float_of_Z 0)
  ∧ align_all both_orders_matrix scenario_gap scenario_skew 3 [U "B"; U "A"]
    = align_all {[ U "AB" := float_of_Z 0 ]} scenario_gap scenario_skew 3
                [U "B"; U "A"]
  ∧ ∃ x' y',
      align_all reversed_matrix fzero fzero 3 [U "A"; U "B"]
      = Throw (invalid_argument (missing_from_matrix (key_of x' y')))
      ∧ reversed_matrix !! key_of x' y' = None.
Proof.
  split_and!.
  - destruct (align_all_canonical_key both_orders_matrix fzero fzero)
      as (_ & Hstep & _).
    by rewrite (Hstep [U "B"] (U "A") 1%nat 1%nat lowest 0%nat (U "B")
                      66%N 65%N).
  - destruct (align_all_canonical_key {[ U "AB" := float_of_Z 0 ]}
                scenario_gap scenario_skew) as (_ & _ & _ & Hframe & _).
    apply Hframe. intros a b Hab. unfold both_orders_matrix.
    apply lookup_insert_ne. change (U "BA") with [66%N; 65%N].
    intros Heq. injection Heq as <- <-. lia.
  - destruct (align_all_canonical_key reversed_matrix fzero fzero)
      as (_ & _ & _ & _ & _ & Hthrow).
    apply (Hthrow 3%nat [U "A"; U "B"] 0%nat 1%nat (U "A") (U "B")
                  65%N 66%N).
    + vm_compute. lia.
    + lia.
    + reflexivity.
    + reflexivity.
    + by apply list_elem_of_here.
    + discriminate.
    + by apply list_elem_of_here.
    + vm_compute. reflexivity.
Defined.

(** The run with both keys, evaluated: the score 0 of "AB" is used, not
    the -100 of "BA", and the two characters share a column. *)
Example align_all_both_orders :
  align_all both_orders_matrix scenario_gap scenario_skew 3 [U "B"; U "A"]
  = Return [U "B"; U "A"].
Proof. vm_compute. reflexivity. Qed.

(** The same run, evaluated: the matrix has "BA" and the message names
    "AB". *)
Example align_all_reversed_key_only :
  reversed_matrix !! U "BA" = Some (float_of_Z 0)
  ∧ align_all reversed_matrix fzero fzero 3 [U "A"; U "B"]
    = Throw (invalid_argument (missing_from_matrix (U "AB"))).
Proof. split; vm_compute; reflexivity. Qed.

(** C6, as amended.  [align_all] throws one class of exception,
    [std::invalid_argument], told apart by its message only: the message
    about the missing strings exactly when the list is empty, and a message
    naming a key exactly when the list is not empty and some character of
    an earlier string, no gap marker, and some character of a later string
    have no entry under their canonical key; that message names such a key,
    and with it no alignment is returned. *)
Theorem align_all_exceptions
    (weight : gmap u32string float) (gap skew : float) (fuel : nat)
    (strings : list u32string) :
  (total_length strings < fuel)%nat →
  (align_all weight gap skew fuel strings = Throw (invalid_argument no_strings)
   ↔ strings = [])
  ∧ ((∃ key, align_all weight gap skew fuel strings
             = Throw (invalid_argument (missing_from_matrix key)))
     ↔ strings ≠ []
       ∧ ∃ k s strk strs x y,
           (k < s)%nat ∧ strings !! k = Some strk ∧ strings !! s = Some strs
           ∧ x ∈ strk ∧ x ≠ gap_char ∧ y ∈ strs
           ∧ weight !! key_of x y = None)
  ∧ (∀ key, align_all weight gap skew fuel strings
            = Throw (invalid_argument (missing_from_matrix key)) →
       missing_score weight strings
                     (invalid_argument (missing_from_matrix key))
       ∧ ∀ results, align_all weight gap skew fuel strings ≠ Return results)
  ∧ (∀ e, align_all weight gap skew fuel strings = Throw e →
          throws_invalid_argument (align_all weight gap skew fuel strings)).
Proof.
  intros Hfuel.
  pose proof (align_all_ends weight gap skew fuel strings Hfuel) as Hends.
  assert (∀ key, align_all weight gap skew fuel strings
                 = Throw (invalid_argument (missing_from_matrix key)) →
                 strings ≠ []
                 ∧ missing_score weight strings
                     (invalid_argument (missing_from_matrix key))) as Hmiss.
  { intros key Hthrow.
    destruct Hends as [[_ H]|[(_ & results & H & _)|(Hne & e & H & He)]];
      rewrite Hthrow in H; simplify_eq. done. }
  split_and!.
  - split; [|intros ->; apply align_all_nil].
    intros Hthrow.
    destruct Hends as [[? _]|[(_ & results & H & _)|(_ & e & H & He)]];
      [done|congruence|].
    rewrite Hthrow in H.
    destruct He as (_ & _ & _ & _ & x & y & _ & _ & _ & _ & _ & _ & _ & ->).
    simplify_eq.
  - split.
    + intros [key Hthrow]. destruct (Hmiss key Hthrow) as [Hne He].
      split; [done|].
      destruct He as (k & s & strk & strs & x & y & ? & ? & ? & ? & ? & ? & ? & _).
      exists k, s, strk, strs, x, y. split_and!; done.
    + intros (Hne & k & s & strk & strs & x & y & ? & ? & ? & ? & ? & ? & ?).
      destruct (align_all_throws weight gap skew fuel strings k s strk strs x y)
        as (e & Hthrow & He); [done..|].
      destruct He as (_ & _ & _ & _ & x' & y' & _ & _ & _ & _ & _ & _ & _ & ->).
      eauto.
  - intros key Hthrow. split; [by apply Hmiss|]. intros results. congruence.
  - intros [what] Hthrow. by exists what.
Qed.

(** "A" against "B" with an empty matrix. *)
Lemma align_all_exceptions_scenario :
  (align_all ∅ fzero fzero 3 [U "A"; U "B"] = Throw (invalid_argument no_strings)
   ↔ [U "A"; U "B"] = [])
  ∧ ((∃ key, align_all ∅ fzero fzero 3 [U "A"; U "B"]
             = Throw (invalid_argument (missing_from_matrix key)))
     ↔ [U "A"; U "B"] ≠ []
       ∧ ∃ k s strk strs x y,
           (k < s)%nat ∧ [U "A"; U "B"] !! k = Some strk
           ∧ [U "A"; U "B"] !! s = Some strs
           ∧ x ∈ strk ∧ x ≠ gap_char ∧ y ∈ strs
           ∧ (∅ : gmap u32string float) !! key_of x y = None)
  ∧ (∀ key, align_all ∅ fzero fzero 3 [U "A"; U "B"]
            = Throw (invalid_argument (missing_from_matrix key)) →
       missing_score ∅ [U "A"; U "B"]
                     (invalid_argument (missing_from_matrix key))
       ∧ ∀ results, align_all ∅ fzero fzero 3 [U "A"; U "B"] ≠ Return results)
  ∧ (∀ e, align_all ∅ fzero fzero 3 [U "A"; U "B"] = Throw e →
          throws_invalid_argument (align_all ∅ fzero fzero 3 [U "A"; U "B"])).
Proof.
  apply (align_all_exceptions ∅ fzero fzero 3 [U "A"; U "B"]).
  vm_compute. lia.
Defined.

(** C6, as stated, fails: on the two strings "A" and "B" with an empty
    matrix the list is not empty and [align_all] throws
    [std::invalid_argument], the class it throws for the empty list. *)
Lemma align_all_invalid_argument_nonempty :
  throws_invalid_argument (align_all ∅ fzero fzero 3 [U "A"; U "B"])
  ∧ align_all ∅ fzero fzero 3 [U "A"; U "B"]
    = Throw (invalid_argument (missing_from_matrix (U "AB")))
  ∧ length [U "A"; U "B"] = 2%nat
  ∧ throws_invalid_argument (align_all ∅ fzero fzero 3 []).
Proof.
  split_and!; [eexists| | |eexists]; vm_compute; reflexivity.
Qed.

(** C9.  When no input string contains the gap marker, deleting the gap
    markers from the rows that [align_all] returns gives back the input
    strings, row [k] giving string [k]. *)
Theorem align_all_rows_are_inputs
    (weight : gmap u32string float) (gap skew : float) (fuel : nat)
    (strings results : list u32string) :
  Forall gap_free strings →
  align_all weight gap skew fuel strings = Return results →
  degap <$> results = strings.
Proof.
  intros Hfree [_ (Hrows & _)]%align_all_Return.
  induction Hrows as [|row str results strings Hrow _ IH]; [done|].
  apply Forall_cons in Hfree as [Hstr Hfree].
  by rewrite fmap_cons, Hrow, (degap_gap_free str Hstr), IH.
Qed.

(** The strings of the scenario hold no gap marker. *)
Lemma scenario_strings_gap_free : Forall gap_free scenario_strings.
Proof.
  repeat constructor; intros H; apply list_elem_of_In in H;
    vm_compute in H; intuition discriminate.
Defined.

(** The rows returned in the scenario, gaps deleted. *)
Lemma align_all_rows_are_inputs_scenario :
  degap <$> [U "A" ++ [gap_char] ++ U "C"; U "AGC"] = scenario_strings.
Proof.
  apply (align_all_rows_are_inputs scenario_matrix scenario_gap scenario_skew
           6 scenario_strings).
  - exact scenario_strings_gap_free.
  - vm_compute. reflexivity.
Defined.

(** C10.  In every round the matrix has direction [none] at [(0, 0)], [up]
    down column 0, [left] along row 0 and one of [diag], [up], [left]
    inside, and the trace-back loop started at [(R, C)] leaves at cell
    [(0, 0)] within [R + C + 1] iterations, having appended at most [R + C]
    characters to the new string.  So [align_all], on a non-empty list and
    with a budget of iterations above the sum of the lengths of its
    strings, ends: it returns, or it throws for a missing score. *)
Theorem align_all_terminates
    (weight : gmap u32string float) (gap skew : float) :
  (∀ (results : list u32string) (str : u32string) (rows : nat)
     (trace : TraceMatrix),
     rectangular results rows →
     build_trace weight gap skew results str rows (length str) = Return trace →
     dir_at trace 0 0 = Some none
     ∧ (∀ r, (1 ≤ r ≤ rows)%nat → dir_at trace r 0 = Some up)
     ∧ (∀ c, (1 ≤ c ≤ length str)%nat → dir_at trace 0 c = Some left)
     ∧ (∀ r c, (1 ≤ r ≤ rows)%nat → (1 ≤ c ≤ length str)%nat →
               ∃ d, dir_at trace r c = Some d ∧ d ≠ none)
     ∧ ∀ fuel, (rows + length str < fuel)%nat →
         ∃ new_results new_string,
           traceback fuel trace results str
             (Walk (Z.of_nat rows) (Z.of_nat (length str))
                   (replicate (length results) []) [])
           = Return (Walk 0 0 new_results new_string)
           ∧ (length new_string ≤ rows + length str)%nat)
  ∧ (∀ (fuel : nat) (strings : list u32string),
       strings ≠ [] → (total_length strings < fuel)%nat →
       (∃ results, align_all weight gap skew fuel strings = Return results)
       ∨ (∃ key, align_all weight gap skew fuel strings
                 = Throw (invalid_argument (missing_from_matrix key)))).
Proof.
  split.
  - intros results str rows trace Hrect Hbuild.
    pose proof (post_Return _ _ _ _ Hbuild
                  (build_trace_post weight gap skew results str rows
                     (length str) Hrect eq_refl)) as Hgrid.
    pose proof Hgrid as (_ & H00 & Hcol & Hrow & Hint).
    split_and!; [done|by auto|by auto| |].
    + intros r c Hr Hc.
      destruct (Hint r c Hr Hc I) as (cu & cl & cg & d & _ & _ & _ & _ & Hcell).
      exists (Trace.dir (interior gap skew cu cl cg d)).
      split; [by unfold dir_at; rewrite Hcell|apply interior_dir].
    + intros fuel Hfuel.
      destruct (traceback_post weight gap skew results str rows (length str)
                  trace Hrect eq_refl Hgrid fuel
                  (Walk (Z.of_nat rows) (Z.of_nat (length str))
                        (replicate (length results) []) []))
        as ([r c nr ns] & Hrun & Hr0 & Hc0 & Hinv).
      { by apply walk_inv_start. }
      { simpl. lia. }
      simpl in *. subst r c. exists nr, ns. split; [done|].
      destruct Hinv as (_ & _ & Hlen & _). simpl in Hlen. lia.
  - intros fuel strings Hne Hfuel.
    destruct (align_all_ends weight gap skew fuel strings Hfuel)
      as [[? _]|[(_ & results & H & _)|(_ & e & H & He)]]; [done|eauto|].
    destruct He as (_ & _ & _ & _ & x & y & _ & _ & _ & _ & _ & _ & _ & ->).
    eauto.
Qed.

(** The round and the run of the scenario. *)
Lemma align_all_terminates_scenario :
  (∃ new_results new_string,
     traceback 6 scenario_trace [U "AC"] (U "AGC")
       (Walk 2 3 (replicate 1 []) [])
     = Return (Walk 0 0 new_results new_string)
     ∧ (length new_string ≤ 2 + 3)%nat)
  ∧ ((∃ results, align_all scenario_matrix scenario_gap scenario_skew 6
                   scenario_strings = Return results)
     ∨ (∃ key, align_all scenario_matrix scenario_gap scenario_skew 6
                 scenario_strings
               = Throw (invalid_argument (missing_from_matrix key)))).
Proof.
  destruct (align_all_terminates scenario_matrix scenario_gap scenario_skew)
    as [Hround Hall].
  split.
  - destruct (Hround [U "AC"] (U "AGC") 2%nat scenario_trace)
      as (_ & _ & _ & _ & Hwalk).
    + by repeat constructor.
    + vm_compute. reflexivity.
    + apply (Hwalk 6%nat). simpl. lia.
  - apply Hall; [done|]. vm_compute. lia.
Defined.

(** ** Further properties *)

(** X1.  [align_all] never indexes a vector or a string past its end:
    whatever the budget of iterations, the run returns an alignment of its
    strings, throws, or is cut by the budget. *)
Theorem align_all_in_bounds
    (weight : gmap u32string float) (gap skew : float) (fuel : nat)
    (strings : list u32string) :
  (∃ results, align_all weight gap skew fuel strings = Return results
              ∧ aligned weight strings results)
  ∨ (∃ e, align_all weight gap skew fuel strings = Throw e)
  ∨ align_all weight gap skew fuel strings = Diverge.
Proof.
  destruct (align_all weight gap skew fuel strings) as [results|e| |] eqn:Hrun.
  - left. exists results. split; [done|]. by eapply align_all_Return.
  - right. left. eauto.
  - pose proof (align_all_settles weight gap skew fuel
                  (fuel `max` S (total_length strings)) strings
                  ltac:(lia)) as Hmore.
    rewrite Hrun in Hmore. specialize (Hmore ltac:(done)).
    destruct (align_all_ends weight gap skew
                (fuel `max` S (total_length strings)) strings)
      as [[_ H]|[(_ & results & H & _)|(_ & e & H & _)]]; [lia|..];
      congruence.
  - by right; right.
Qed.

(** X2.  [levenshtein_all] returns the tuples of the enumeration, each
    once: the tuples [(levenshtein(strings[i], strings[j]), i, j)] for
    [i < j < n]. *)
Theorem levenshtein_all_pairs (strings : list u32string) :
  levenshtein_all strings ≡ₚ all_pairs strings
  ∧ ∀ t, t ∈ levenshtein_all strings ↔
         ∃ i j : nat,
           (i < j < length strings)%nat
           ∧ t = (levenshtein (strings !!! i) (strings !!! j),
                  Z.of_nat i, Z.of_nat j).
Proof.
  assert (levenshtein_all strings ≡ₚ all_pairs strings) as Hperm
    by apply (stable_sort_perm get0).
  split; [done|]. intros t. rewrite Hperm, all_pairs_rows.
  rewrite list_elem_of_bind. unfold row_pairs, range. split.
  - intros (r & (c & -> & Hc%elem_of_seqZ)%list_elem_of_fmap & Hr%elem_of_seqZ).
    exists (Z.to_nat r), (Z.to_nat c). split; [lia|].
    by rewrite !Z2Nat.id by lia.
  - intros (i & j & Hij & ->). exists (Z.of_nat i). split.
    + apply list_elem_of_fmap. exists (Z.of_nat j).
      rewrite !Nat2Z.id. split; [done|]. apply elem_of_seqZ. lia.
    + apply elem_of_seqZ. lia.
Qed.

(** ** What [align_all] returns *)

(** X3.  What [align_all] returns has one row per string; each row is its
    string up to gap markers, whether or not the strings hold gap markers
    themselves; and the common length of the rows is at least the number of
    characters other than gap markers of every string and at most the sum
    of the lengths of the strings. *)
Theorem align_all_shape
    (weight : gmap u32string float) (gap skew : float) (fuel : nat)
    (strings results : list u32string) :
  align_all weight gap skew fuel strings = Return results →
  length results = length strings
  ∧ degap <$> results = degap <$> strings
  ∧ ∃ width,
      rectangular results width
      ∧ Forall (λ str, (length (degap str) ≤ width)%nat) strings
      ∧ (width ≤ total_length strings)%nat.
Proof.
  intros Hrun.
  destruct (align_all_Return _ _ _ _ _ _ Hrun)
    as [_ (Hrows & (width & Hrect & Hwidth & _) & _)].
  split_and!.
  - by eapply Forall2_length.
  - clear -Hrows. induction Hrows as [|row str results strings Hrow _ IH];
      [done|].
    by rewrite !fmap_cons, Hrow, IH.
  - exists width. split_and!; [done| |done].
    apply Forall_lookup. intros k str Hstr.
    destruct (Forall2_lookup_r _ _ _ _ _ Hrows Hstr) as (row & Hk & Hrow).
    rewrite <-Hrow, <-(rectangular_lookup _ _ _ _ Hrect Hk).
    apply length_filter.
Qed.

Lemma align_all_shape_scenario :
  length [U "A" ++ [gap_char] ++ U "C"; U "AGC"] = length scenario_strings
  ∧ degap <$> [U "A" ++ [gap_char] ++ U "C"; U "AGC"]
    = degap <$> scenario_strings
  ∧ ∃ width,
      rectangular [U "A" ++ [gap_char] ++ U "C"; U "AGC"] width
      ∧ Forall (λ str, (length (degap str) ≤ width)%nat) scenario_strings
      ∧ (width ≤ total_length scenario_strings)%nat.
Proof.
  apply (align_all_shape scenario_matrix scenario_gap scenario_skew 6).
  vm_compute. reflexivity.
Defined.

(** X4.  The strings are folded in one after the other: aligning
    [strings ++ [str]] is aligning [strings] and then folding [str] into
    the rows obtained, so that an exception of the shorter run is the
    exception of the longer one. *)
Theorem align_all_last_string
    (weight : gmap u32string float) (gap skew : float) (fuel : nat)
    (strings : list u32string) (str : u32string) :
  strings ≠ [] →
  align_all weight gap skew fuel (strings ++ [str])
  = (results ← align_all weight gap skew fuel strings;
     fold_in weight gap skew fuel results str)
  ∧ ∀ e, align_all weight gap skew fuel strings = Throw e →
         align_all weight gap skew fuel (strings ++ [str]) = Throw e.
Proof.
  intros Hne. split.
  - by apply align_all_snoc.
  - intros e Hthrow. rewrite align_all_snoc by done. by rewrite Hthrow.
Qed.

Lemma align_all_last_string_scenario :
  align_all scenario_matrix scenario_gap scenario_skew 6
            ([U "AC"] ++ [U "AGC"])
  = (results ← align_all scenario_matrix scenario_gap scenario_skew 6
                         [U "AC"];
     fold_in scenario_matrix scenario_gap scenario_skew 6 results (U "AGC"))
  ∧ ∀ e, align_all scenario_matrix scenario_gap scenario_skew 6 [U "AC"]
         = Throw e →
         align_all scenario_matrix scenario_gap scenario_skew 6
                   ([U "AC"] ++ [U "AGC"]) = Throw e.
Proof. apply align_all_last_string. discriminate. Defined.

(** X5.  When the first of two strings is empty, no score is looked up:
    the first row is all gap markers and the second row is the second
    string, whatever the matrix holds. *)
Theorem align_all_empty_first
    (weight : gmap u32string float) (gap skew : float) (fuel : nat)
    (str : u32string) :
  align_all weight gap skew (S (length str) + fuel) [[]; str]
  = Return [replicate (length str) gap_char; str].
Proof.
  unfold align_all. rewrite decide_False by (simpl; lia).
  change (at_ [[]; str] 0) with (@Return u32string []).
  cbn [mbind outcome_bind length Nat.sub seq for_each].
  change (at_ [[]; str] 1) with (Return str).
  cbn [mbind outcome_bind].
  rewrite fold_in_empty_rows; [done|done|by repeat constructor].
Qed.

(** X6.  An empty string at the end of the list is aligned as a row of gap
    markers, and the rows of the strings before it are what [align_all]
    returns for them alone. *)
Theorem align_all_empty_last
    (weight : gmap u32string float) (gap skew : float) (fuel : nat)
    (strings results : list u32string) :
  (total_length strings < fuel)%nat →
  align_all weight gap skew fuel strings = Return results →
  ∃ width,
    rectangular results width
    ∧ align_all weight gap skew fuel (strings ++ [[]])
      = Return (results ++ [replicate width gap_char]).
Proof.
  intros Hfuel Hrun.
  destruct (align_all_Return _ _ _ _ _ _ Hrun)
    as [Hne (Hrows & (width & Hrect & Hwidth & _) & _)].
  exists width. split; [done|].
  rewrite align_all_snoc by done. rewrite Hrun. cbn [mbind outcome_bind].
  replace fuel with (S width + (fuel - S width))%nat by lia.
  apply fold_in_empty_string; [|done].
  intros ->. apply Forall2_length in Hrows. by destruct strings.
Qed.

Lemma align_all_empty_last_scenario :
  ∃ width,
    rectangular [U "A" ++ [gap_char] ++ U "C"; U "AGC"] width
    ∧ align_all scenario_matrix scenario_gap scenario_skew 6
                (scenario_strings ++ [[]])
      = Return ([U "A" ++ [gap_char] ++ U "C"; U "AGC"]
                  ++ [replicate width gap_char]).
Proof.
  apply align_all_empty_last.
  - vm_compute. lia.
  - vm_compute. reflexivity.
Defined.

(** ** What the trace matrix holds *)

(** X7.  In the matrix of a round, cell [(0, 0)] is as constructed; the
    cells [(r, 0)] hold, in [val], [up] and [left] alike, [gap] with [skew]
    added [r - 1] times, and point up; the cells [(0, c)] hold [gap] with
    [skew] added [c - 1] times and point left.  The loops over the interior
    leave them so. *)
Theorem build_trace_boundary
    (weight : gmap u32string float) (gap skew : float)
    (results : list u32string) (str : u32string) (rows cols : nat)
    (trace : TraceMatrix) :
  build_trace weight gap skew results str rows cols = Return trace →
  lookup2 trace 0 0 = Some Trace_new
  ∧ (∀ r, (1 ≤ r ≤ rows)%nat →
          lookup2 trace r 0
          = Some (let g := boundary_score gap skew r in Trace.mk g g g up))
  ∧ (∀ c, (1 ≤ c ≤ cols)%nat →
          lookup2 trace 0 c
          = Some (let g := boundary_score gap skew c in Trace.mk g g g left)).
Proof.
  intros Hbuild. unfold build_trace in Hbuild.
  apply bind_Return_inv in Hbuild as ([g1 trace1] & Hcolumn & Hbuild).
  apply bind_Return_inv in Hbuild as ([g2 trace2] & Hrow & Hfill).
  pose proof (init_column_Return _ _ _ _ _ _ Hcolumn) as H1.
  pose proof (init_row_Return _ _ _ _ _ _ Hrow) as H2.
  pose proof (fill_Return _ _ _ _ _ _ _ _ _ Hfill) as H3.
  split_and!.
  - rewrite H3, H2, H1, !decide_False by lia. apply lookup2_new; lia.
  - intros r Hr. rewrite H3, H2, decide_False, H1, decide_True by lia. done.
  - intros c Hc. rewrite H3, H2, decide_True by lia. done.
Qed.

Lemma build_trace_boundary_scenario :
  lookup2 scenario_trace 0 0 = Some Trace_new
  ∧ (∀ r, (1 ≤ r ≤ 2)%nat →
          lookup2 scenario_trace r 0
          = Some (let g := boundary_score scenario_gap scenario_skew r in
                  Trace.mk g g g up))
  ∧ (∀ c, (1 ≤ c ≤ 3)%nat →
          lookup2 scenario_trace 0 c
          = Some (let g := boundary_score scenario_gap scenario_skew c in
                  Trace.mk g g g left)).
Proof.
  apply (build_trace_boundary scenario_matrix scenario_gap scenario_skew
           [U "AC"] (U "AGC") 2 3 scenario_trace).
  vm_compute. reflexivity.
Defined.

(** X8.  In the matrix of a round, the [up] and [left] scores of an
    interior cell are computed from the cell above and the cell to the left
    as the matrix finally holds them: the larger of extending their gap by
    [skew] and of opening a gap from their [val] by [gap]. *)
Theorem build_trace_gap_scores
    (weight : gmap u32string float) (gap skew : float)
    (results : list u32string) (str : u32string) (rows : nat)
    (trace : TraceMatrix) (r c : nat) :
  rectangular results rows →
  build_trace weight gap skew results str rows (length str) = Return trace →
  (1 ≤ r ≤ rows)%nat → (1 ≤ c ≤ length str)%nat →
  ∃ cell cell_up cell_left,
    lookup2 trace r c = Some cell
    ∧ lookup2 trace (r - 1) c = Some cell_up
    ∧ lookup2 trace r (c - 1) = Some cell_left
    ∧ Trace.up cell = fmax2 (fadd (Trace.up cell_up) skew)
                            (fadd (Trace.val cell_up) gap)
    ∧ Trace.left cell = fmax2 (fadd (Trace.left cell_left) skew)
                              (fadd (Trace.val cell_left) gap).
Proof.
  intros Hrect Hbuild Hr Hc.
  pose proof (post_Return _ _ _ _ Hbuild
                (build_trace_post weight gap skew results str rows
                   (length str) Hrect eq_refl)) as (_ & _ & _ & _ & Hint).
  destruct (Hint r c Hr Hc I) as (cu & cl & cg & d & Hcu & Hcl & _ & _ & Hcell).
  exists (interior gap skew cu cl cg d), cu, cl. done.
Qed.

Lemma build_trace_gap_scores_scenario :
  ∃ cell cell_up cell_left,
    lookup2 scenario_trace 2 3 = Some cell
    ∧ lookup2 scenario_trace (2 - 1) 3 = Some cell_up
    ∧ lookup2 scenario_trace 2 (3 - 1) = Some cell_left
    ∧ Trace.up cell = fmax2 (fadd (Trace.up cell_up) scenario_skew)
                            (fadd (Trace.val cell_up) scenario_gap)
    ∧ Trace.left cell = fmax2 (fadd (Trace.left cell_left) scenario_skew)
                              (fadd (Trace.val cell_left) scenario_gap).
Proof.
  apply (build_trace_gap_scores scenario_matrix scenario_gap scenario_skew
           [U "AC"] (U "AGC") 2 scenario_trace 2 3).
  - by repeat constructor.
  - vm_compute. reflexivity.
  - lia.
  - simpl. lia.
Defined.

(** X9.  A string added at the end of the list only inserts whole columns
    of gap markers into the alignment of the strings before it.  There is
    a path of moves [diag], [up] and [left] such that every earlier row is
    the row [align_all] returns for the earlier strings alone, with a gap
    marker at every [left], and the last row is the added string with a
    gap marker at every [up]. *)
Theorem align_all_gap_columns
    (weight : gmap u32string float) (gap skew : float) (fuel : nat)
    (strings : list u32string) (str : u32string)
    (results' : list u32string) :
  strings ≠ [] →
  align_all weight gap skew fuel (strings ++ [str]) = Return results' →
  ∃ results moves,
    align_all weight gap skew fuel strings = Return results
    ∧ (none ∉ moves)
    ∧ rectangular results (steps left moves)
    ∧ steps up moves = length str
    ∧ results' = ((λ row, spread left moves row 0) <$> results)
                   ++ [spread up moves str 0].
Proof.
  intros Hne Hrun. rewrite align_all_snoc in Hrun by done.
  apply bind_Return_inv in Hrun as (results & Hfirst & Hround).
  destruct (align_all_Return _ _ _ _ _ _ Hfirst)
    as [_ (Hrows & (width & Hrect & _) & _)].
  destruct (fold_in_path weight gap skew fuel results str width results')
    as (moves & Hnone & Hleft & Hup & Hresults'); [|done|done|].
  { intros ->. apply Forall2_length in Hrows. by destruct strings. }
  exists results, moves. by rewrite Hleft.
Qed.

Lemma align_all_gap_columns_scenario :
  ∃ results moves,
    align_all scenario_matrix scenario_gap scenario_skew 6 [U "AC"]
    = Return results
    ∧ (none ∉ moves)
    ∧ rectangular results (steps left moves)
    ∧ steps up moves = length (U "AGC")
    ∧ [U "A" ++ [gap_char] ++ U "C"; U "AGC"]
      = ((λ row, spread left moves row 0) <$> results)
          ++ [spread up moves (U "AGC") 0].
Proof.
  apply (align_all_gap_columns scenario_matrix scenario_gap scenario_skew 6
           [U "AC"] (U "AGC")).
  - discriminate.
  - vm_compute. reflexivity.
Defined.

(** X10.  [align_all] depends on the matrix only through the scores of the
    pairs it compares, a character other than the gap marker of an earlier
    string with a character of a later string: two matrices that agree on
    those keys give the same rows, or the same exception. *)
Theorem align_all_matrix_frame
    (weight1 weight2 : gmap u32string float) (gap skew : float) (fuel : nat)
    (strings : list u32string) :
  (∀ k s strk strs x y,
     (k < s)%nat → strings !! k = Some strk → strings !! s = Some strs →
     x ∈ strk → x ≠ gap_char → y ∈ strs →
     weight1 !! key_of x y = weight2 !! key_of x y) →
  align_all weight1 gap skew fuel strings
  = align_all weight2 gap skew fuel strings.
Proof.
  induction strings as [|str strings IH] using rev_ind; intros Hsame; [done|].
  destruct (decide (strings = [])) as [->|Hne]; [done|].
  rewrite !align_all_snoc by done. rewrite IH.
  2:{ intros k s strk strs x y Hks Hk Hs. apply (Hsame k s); [done|..].
      - by apply lookup_app_l_Some.
      - by apply lookup_app_l_Some. }
  destruct (align_all weight2 gap skew fuel strings) as [results| | |] eqn:Hrun;
    [|done..].
  cbn [mbind outcome_bind]. apply fold_in_frame.
  destruct (align_all_Return _ _ _ _ _ _ Hrun) as [_ (Hrows & _)].
  intros row x y [k Hrow]%list_elem_of_lookup Hx Hgap Hy.
  destruct (Forall2_lookup_l _ _ _ _ _ Hrows Hrow) as (strk & Hk & Hdegap).
  apply (Hsame k (length strings) strk str).
  - by apply lookup_lt_Some in Hk.
  - by apply lookup_app_l_Some.
  - by rewrite lookup_app_r, Nat.sub_diag by done.
  - assert (x ∈ degap strk) as Hin.
    { rewrite <-Hdegap. by apply elem_of_degap. }
    by apply elem_of_degap in Hin as [_ Hin].
  - done.
  - done.
Qed.

Lemma align_all_matrix_frame_scenario :
  align_all scenario_matrix scenario_gap scenario_skew 6 scenario_strings
  = align_all (<[U "TT" := float_of_Z 5]> scenario_matrix)
              scenario_gap scenario_skew 6 scenario_strings.
Proof.
  apply align_all_matrix_frame.
  intros k s strk strs x y Hks Hk Hs Hx Hgap Hy.
  assert (s = 1%nat) as ->.
  { apply lookup_lt_Some in Hs. simpl in Hs. lia. }
  assert (k = 0%nat) as -> by lia.
  injection Hk as <-. injection Hs as <-.
  rewrite lookup_insert_ne; [done|].
  repeat (apply elem_of_cons in Hx as [->|Hx]);
    [..|by apply elem_of_nil in Hx];
    (repeat (apply elem_of_cons in Hy as [->|Hy]);
       [..|by apply elem_of_nil in Hy]); by vm_compute.
Defined.

(** ** What [levenshtein] returns *)

(** X11.  [levenshtein] returns at least 0 and at least [len2 - len1]; at
    most the edit distance of its arguments; and, when [str2] is not empty,
    at most [len2], however long [str1] is. *)
Theorem levenshtein_bounds (str1 str2 : u32string) :
  Z.max 0 (Z.of_nat (length str2) - Z.of_nat (length str1))
    ≤ levenshtein str1 str2 ≤ edit_distance str1 str2
  ∧ (str2 ≠ [] → levenshtein str1 str2 ≤ Z.of_nat (length str2)).
Proof.
  pose proof (levenshtein_range str1 str2) as (Hzero & Hlow & Hhigh).
  pose proof (levenshtein_le_edit_distance str1 str2) as Hdist.
  split; [lia|done].
Qed.

(** X12.  [levenshtein] returns 0 for equal strings, and for equal
    strings only. *)
Theorem levenshtein_zero (str1 str2 : u32string) :
  levenshtein str1 str2 = 0 ↔ str1 = str2.
Proof.
  split; [apply levenshtein_eq_of_zero|]. intros <-.
  pose proof (levenshtein_range str1 str1) as [Hlo _].
  pose proof (levenshtein_le_edit_distance str1 str1) as Hhi.
  rewrite edit_distance_refl in Hhi. lia.
Qed.

(** X13.  When [str1] has at most one character the outer loop runs at most
    once, and [levenshtein] returns the edit distance. *)
Theorem levenshtein_short_first (str1 str2 : u32string) :
  (length str1 ≤ 1)%nat →
  levenshtein str1 str2 = edit_distance str1 str2.
Proof.
  intros Hlen. destruct str1 as [|x [|? ?]]; [| |simpl in Hlen; lia].
  { by rewrite levenshtein_nil_l, edit_distance_nil_l. }
  destruct (decide (str2 = [])) as [->|Hne]; [done|].
  rewrite <-(take_ge str2 (length str2)) at 2 by done.
  change [x] with (take 1 [x]) at 2.
  apply (levenshtein_rule [x] str2
           (λ r c v, match r with
                     | O => v = Z.of_nat c
                     | S _ => (c = 0%nat → v = 0)
                              ∧ ((1 ≤ c)%nat →
                                 v = edit_distance (take r [x]) (take c str2))
                     end)); [done|done|done|..].
  - intros r v Hr. simpl in Hr. assert (r = 0%nat) as -> by lia.
    intros ->. split; [done|lia].
  - intros r c d l u Hr Hc Hd Hl Hu. simpl in Hr.
    assert (r = 0%nat) as -> by lia. split; [lia|intros _].
    rewrite edit_distance_take_S by (simpl; lia).
    rewrite take_0, edit_distance_nil_l in *. subst u.
    assert (d = Z.of_nat c) as ->.
    { unfold corner in Hd. by case_decide; subst. }
    rewrite edit_distance_nil_l, !length_take.
    replace (c `min` length str2)%nat with c by lia.
    replace (S c `min` length str2)%nat with (S c) by lia.
    destruct Hl as [Hl0 Hl1]. destruct (decide (c = 0%nat)) as [->|Hc0].
    + rewrite Hl0 by done. rewrite take_0, edit_distance_nil_r. simpl length.
      unfold min3, subst_cost. case_decide; lia.
    + by rewrite Hl1 by lia.
  - destruct str2; [done|simpl; lia].
Qed.

Lemma levenshtein_short_first_a_abc :
  levenshtein (U "a") (U "abc") = edit_distance (U "a") (U "abc").
Proof. apply levenshtein_short_first. simpl. lia. Defined.

(** X14.  When [str1] is more than twice as long as a non-empty [str2], the
    result is at most the length of [str2]: it is less than the edit
    distance, and less than what the call with the arguments exchanged
    returns. *)
Theorem levenshtein_long_first (str1 str2 : u32string) :
  str2 ≠ [] →
  (2 * length str2 < length str1)%nat →
  levenshtein str1 str2 ≤ Z.of_nat (length str2)
  ∧ levenshtein str1 str2 < edit_distance str1 str2
  ∧ levenshtein str1 str2 < levenshtein str2 str1.
Proof.
  intros Hne Hlen.
  pose proof (levenshtein_range str1 str2) as (_ & _ & Hhi).
  specialize (Hhi Hne).
  pose proof (levenshtein_range str2 str1) as (_ & Hlo & _).
  pose proof (edit_distance_length str1 str2). lia.
Qed.

Lemma levenshtein_long_first_abc_d :
  levenshtein (U "abc") (U "d") ≤ 1
  ∧ levenshtein (U "abc") (U "d") < edit_distance (U "abc") (U "d")
  ∧ levenshtein (U "abc") (U "d") < levenshtein (U "d") (U "abc").
Proof. apply (levenshtein_long_first (U "abc") (U "d")); [done|simpl; lia]. Defined.
